(** * DataLake: a file-backed, offset-indexed key-value store

    A shallow embedding of the [DataLake] class template of [src/main.cpp]
    and the properties of its public operations.

    The class is a template over the key and value types and over two
    stream policies.  The policies are the codec: [insertPolicy] writes one
    value to an output stream, [extractPolicy] reads one value from an input
    stream.  They are Section variables here, so every statement holds for
    any codec; a small concrete codec instantiates the general statements. *)

From Stdlib Require Import ZArith Lia.
From stdpp Require Import base option list gmap strings.

(** ** Files and directories *)

(** An entry met by [std::filesystem::directory_iterator]: its path and the
    answer of [entry.is_regular_file()]. *)
Record dirent := mkDirent { ent_path : string; ent_regular : bool }.

(** The part of the file system the class touches: the bytes of each file
    that an [std::ifstream] can open, for each directory the entries in
    the order in which [directory_iterator] yields them, and, since that
    order is not specified, for each path the place at which the listing of
    its directory shows a file created under that path.  Paths are taken as
    written, one path for one file, and the files and directories of the
    model are those the process may read and write. *)
Record filesystem := mkFilesystem {
  fs_file : gmap string (list Byte.byte);
  fs_dir : gmap string (list dirent);
  fs_slot : string → nat
}.

(** The directory of a path: what precedes its last separator, the root for
    a file directly under it, nothing for a path without a separator (a
    file of the current directory). *)
Fixpoint has_separator (p : string) : bool :=
  match p with
  | EmptyString => false
  | String c rest =>
      if decide (String c EmptyString = "/") then true else has_separator rest
  end.

Fixpoint directory_part (p : string) : string :=
  match p with
  | EmptyString => EmptyString
  | String c rest =>
      if has_separator rest then String c (directory_part rest) else EmptyString
  end.

Definition parent_path (p : string) : option string :=
  if has_separator p then
    Some (match directory_part p with
          | EmptyString => "/"
          | d => d
          end)
  else None.

(** [std::ofstream out(p, std::ios::app | std::ios_base::binary)]: the
    bytes in front of the put position when the stream is open.  An existing
    file is opened at its end.  The empty path and the path of a directory
    are not opened; a file that does not exist is created, empty, when its
    directory exists, and not opened otherwise. *)
Definition open_append (fs : filesystem) (p : string) : option (list Byte.byte) :=
  if decide (p = EmptyString) then None
  else
    match fs_file fs !! p with
    | Some content => Some content
    | None =>
        if decide (is_Some (fs_dir fs !! p)) then None
        else
          match parent_path p with
          | Some d => if decide (is_Some (fs_dir fs !! d)) then Some [] else None
          | None => Some []
          end
    end.

(** A listing with one more entry, at place [i] (at the end when the
    listing is shorter). *)
Definition list_entry (listing : list dirent) (i : nat) (entry : dirent)
  : list dirent :=
  take i listing ++ entry :: drop i listing.

(** The file system once the stream opened on [p] is closed with [content]
    in the file: a file that was created is from then on a regular file of
    the listing of its directory. *)
Definition write_file (fs : filesystem) (p : string) (content : list Byte.byte) : filesystem :=
  match fs_file fs !! p with
  | Some _ => mkFilesystem (<[p := content]> (fs_file fs)) (fs_dir fs) (fs_slot fs)
  | None =>
      mkFilesystem (<[p := content]> (fs_file fs))
        (match parent_path p with
         | Some d =>
             alter (λ listing, list_entry listing (fs_slot fs p) (mkDirent p true))
               d (fs_dir fs)
         | None => fs_dir fs
         end)
        (fs_slot fs)
  end.

(** [in.seekg(offset)] on a freshly opened stream: the bytes that remain to
    be read.  A negative offset makes the seek fail, and nothing can be read
    from a failed stream. *)
Definition seekg (content : list Byte.byte) (offset : Z) : list Byte.byte :=
  if (offset <? 0)%Z then [] else drop (Z.to_nat offset) content.

(** [get_fsize(p)]: the stream is opened at its end ([std::ios::ate]), so
    [in.tellg()] is the size of the file; on a stream that is not open
    [tellg()] is -1. *)
Definition get_fsize (fs : filesystem) (p : string) : Z :=
  match fs_file fs !! p with
  | Some content => Z.of_nat (length content)
  | None => (-1)%Z
  end.

(** How a call of the model ends.  [OutOfFuel] belongs to the model only: the
    [while] loops of the source are run with a bound on their iterations. *)
Inductive outcome (A : Type) : Type :=
  | Done (a : A)
  | FilesystemError
  | OutOfFuel.
Arguments Done {A} a.
Arguments FilesystemError {A}.
Arguments OutOfFuel {A}.

(** ** A concrete codec

    Used to run the general statements: a value is a key byte and a data
    byte, written as three bytes, a marker [xff] followed by the two. *)
Module ByteCodec.

Definition Value : Type := Byte.byte * Byte.byte.

Definition getKey (v : Value) : nat := Byte.to_nat (fst v).

Definition Value_default : Value := (Byte.x00, Byte.x00).

Definition insertPolicy (v : Value) : list Byte.byte :=
  [Byte.xff; fst v; snd v].

Definition extractPolicy (unread : list Byte.byte) (value : Value)
  : Value * option nat :=
  match unread with
  | Byte.xff :: k :: d :: _ => ((k, d), Some 3)
  | _ => (value, None)
  end.

(** The three bytes are read by a read of three bytes, which never runs
    into the end of the file. *)
Definition extract_eofbit (unread : list Byte.byte) (value : Value) : bool :=
  false.

(** The same codec reading one byte ahead, as a formatted extraction does:
    a record that ends the file leaves [eofbit] set. *)
Definition extract_eofbit_ahead (unread : list Byte.byte) (value : Value)
  : bool :=
  bool_decide (length unread ≤ 3).

(** The data byte read as an offset. *)
Definition offset_of_value (v : Value) : Z := Z.of_nat (Byte.to_nat (snd v)).

Definition a1 : Value := (Byte.x01, Byte.x01).
Definition b2 : Value := (Byte.x02, Byte.x02).
Definition a3 : Value := (Byte.x01, Byte.x03).

Definition file (name : string) : dirent := mkDirent name true.

(** One directory with one log file holding the records of [a1], [b2]
    and [a3], in that order, and an empty directory. *)
Definition fs_one : filesystem :=
  mkFilesystem
    {[ "lake/0.log" := insertPolicy a1 ++ insertPolicy b2 ++ insertPolicy a3 ]}
    {[ "lake" := [file "lake/0.log"]; "empty" := [] ]} (λ _, 0).

(** One directory with two log files: [a1] in the first, [b2] and [a3] in
    the second. *)
Definition fs_two : filesystem :=
  mkFilesystem
    {[ "lake/0.log" := insertPolicy a1;
       "lake/1.log" := insertPolicy b2 ++ insertPolicy a3 ]}
    {[ "lake" := [file "lake/0.log"; file "lake/1.log"] ]} (λ _, 0).

(** A log file whose second record has lost its marker, followed by a
    well-formed third record. *)
Definition fs_damaged : filesystem :=
  mkFilesystem
    {[ "lake/0.log" :=
         insertPolicy a1 ++ [Byte.x00; Byte.x02; Byte.x02] ++ insertPolicy a3 ]}
    {[ "lake" := [file "lake/0.log"] ]} (λ _, 0).

(** The damaged log file followed by a second log file that holds [b2], in
    a directory that also has a subdirectory. *)
Definition fs_damaged_two : filesystem :=
  mkFilesystem
    {[ "lake/0.log" :=
         insertPolicy a1 ++ [Byte.x00; Byte.x02; Byte.x02] ++ insertPolicy a3;
       "lake/1.log" := insertPolicy b2 ]}
    {[ "lake" := [file "lake/0.log"; mkDirent "lake/sub" false;
                  file "lake/1.log"] ]}
    (λ _, 0).

(** A directory whose only log file is still empty. *)
Definition fs_fresh : filesystem :=
  mkFilesystem {[ "lake/0.log" := [] ]} {[ "lake" := [file "lake/0.log"] ]}
    (λ _, 0).

(** The two log files of [fs_two] in a directory that also has a
    subdirectory. *)
Definition fs_mixed : filesystem :=
  mkFilesystem
    {[ "lake/0.log" := insertPolicy a1;
       "lake/1.log" := insertPolicy b2 ++ insertPolicy a3 ]}
    {[ "lake" := [mkDirent "lake/sub" false; file "lake/0.log";
                  file "lake/1.log"] ]}
    (λ _, 0).

End ByteCodec.

(** ** KripkeFrame

    The class template [KripkeFrame<State, Label>]: three vectors.  Indexing
    a vector out of its range is undefined in the source; here it is
    [None]. *)
Record KripkeFrame (State Label : Type) := mkKripkeFrame {
  m_states : list State;
  m_labels : list Label;
  m_transitions : list (list nat)
}.
Arguments mkKripkeFrame {State Label} _ _ _.
Arguments m_states {State Label} _.
Arguments m_labels {State Label} _.
Arguments m_transitions {State Label} _.

(** The defaulted constructor: three empty vectors. *)
Definition KripkeFrame_new {State Label : Type} : KripkeFrame State Label :=
  mkKripkeFrame [] [] [].

(** Both overloads of [add_state] push the state and drop the label. *)
Definition add_state {State Label : Type} (state : State) (label : Label)
    (frame : KripkeFrame State Label) : KripkeFrame State Label :=
  mkKripkeFrame (m_states frame ++ [state]) (m_labels frame)
    (m_transitions frame).

(** [m_transitions[from].push_back(to)] *)
Definition add_transition {State Label : Type} (from to : nat)
    (frame : KripkeFrame State Label) : option (KripkeFrame State Label) :=
  match m_transitions frame !! from with
  | Some successors =>
      Some (mkKripkeFrame (m_states frame) (m_labels frame)
              (<[from := successors ++ [to]]> (m_transitions frame)))
  | None => None
  end.

Definition num_states {State Label : Type} (frame : KripkeFrame State Label)
  : nat :=
  length (m_states frame).

Definition get_state {State Label : Type} (frame : KripkeFrame State Label)
    (idx : nat) : option State :=
  m_states frame !! idx.

Definition get_label {State Label : Type} (frame : KripkeFrame State Label)
    (idx : nat) : option Label :=
  m_labels frame !! idx.

(** A call of one of the two mutating member functions, and a sequence of
    such calls run on a frame. *)
Inductive frame_call (State Label : Type) : Type :=
  | Call_add_state (state : State) (label : Label)
  | Call_add_transition (from to : nat).
Arguments Call_add_state {State Label} _ _.
Arguments Call_add_transition {State Label} _ _.

Definition run_call {State Label : Type} (call : frame_call State Label)
    (frame : KripkeFrame State Label) : option (KripkeFrame State Label) :=
  match call with
  | Call_add_state state label => Some (add_state state label frame)
  | Call_add_transition from to => add_transition from to frame
  end.

Fixpoint run_calls {State Label : Type} (calls : list (frame_call State Label))
    (frame : KripkeFrame State Label) : option (KripkeFrame State Label) :=
  match calls with
  | [] => Some frame
  | call :: rest =>
      match run_call call frame with
      | Some frame' => run_calls rest frame'
      | None => None
      end
  end.

(** The states passed to [add_state] in a sequence of calls, in order. *)
Fixpoint added_states {State Label : Type}
    (calls : list (frame_call State Label)) : list State :=
  match calls with
  | [] => []
  | Call_add_state state _ :: rest => state :: added_states rest
  | Call_add_transition _ _ :: rest => added_states rest
  end.

(** ** Expression

    The expression classes at [T = int], the type [main] uses, with the
    integer operators of the source.  [int] ranges over
    [- int_max - 1 .. int_max]; an operation whose result leaves that range,
    or a division by zero, is undefined in the source and [None] here.
    [Power] goes through the floating-point [std::pow] and [NAry] has no
    operator in the source: both are left out. *)
Inductive BinaryOp : Type := Add | Subtract | Multiply | Divide | Modulo.

Inductive Expression : Type :=
  | Constant (m_value : Z)
  | Mutable (m_value : Z)
  | Binary (Op : BinaryOp) (m_left m_right : Expression)
  | Unary (Op : Z → option Z) (m_expr : Expression).

Definition in_int (int_max : Z) (z : Z) : option Z :=
  if decide (- int_max - 1 ≤ z ≤ int_max)%Z then Some z else None.

(** [Op::apply(left, right)] *)
Definition Op_apply (int_max : Z) (Op : BinaryOp) (left right : Z) : option Z :=
  match Op with
  | Add => in_int int_max (left + right)
  | Subtract => in_int int_max (left - right)
  | Multiply => in_int int_max (left * right)
  | Divide =>
      if decide (right = 0%Z) then None else in_int int_max (Z.quot left right)
  | Modulo =>
      if decide (right = 0%Z) then None
      else if decide (left = (- int_max - 1)%Z ∧ right = (-1)%Z) then None
      else Some (Z.rem left right)
  end.

Fixpoint evaluate (int_max : Z) (e : Expression) : option Z :=
  match e with
  | Constant m_value => Some m_value
  | Mutable m_value => Some m_value
  | Binary Op m_left m_right =>
      match evaluate int_max m_left, evaluate int_max m_right with
      | Some l, Some r => Op_apply int_max Op l r
      | _, _ => None
      end
  | Unary Op m_expr =>
      match evaluate int_max m_expr with
      | Some value => Op value
      | None => None
      end
  end.

(** The expression built and evaluated by [main]. *)
Definition main_expression : Expression :=
  Binary Add (Binary Add (Constant 5) (Constant 10)) (Constant 15).

(** The values at the leaves of an expression, left to right, and the
    expressions made of [Add] nodes only. *)
Fixpoint leaves (e : Expression) : list Z :=
  match e with
  | Constant m_value | Mutable m_value => [m_value]
  | Binary _ m_left m_right => leaves m_left ++ leaves m_right
  | Unary _ m_expr => leaves m_expr
  end.

Fixpoint sum_tree (e : Expression) : bool :=
  match e with
  | Constant _ | Mutable _ => true
  | Binary Add m_left m_right => sum_tree m_left && sum_tree m_right
  | _ => false
  end.

Definition total (zs : list Z) : Z := foldr Z.add 0%Z zs.

Section DataLake.

Context {Key : Type} `{Countable Key}.
Context {Value : Type}.

(** [value.getKey()] *)
Variable getKey : Value → Key.

(** The state of a default-initialised [Value value;]. *)
Variable Value_default : Value.

(** [insertPolicy(out, value)]: the bytes written to [out]. *)
Variable insertPolicy : Value → list Byte.byte.

(** [extractPolicy(in, value)]: given the bytes still unread and the
    current state of [value] (passed by reference), the new state of
    [value] and, when the stream is still good afterwards, the number of
    bytes consumed; [None] is a stream left in the failed state. *)
Variable extractPolicy : list Byte.byte → Value → Value * option nat.

(** Whether that extraction, when it succeeds, has run into the end of the
    file and so leaves [eofbit] set (a formatted extraction that reads up to
    the end does; a read of just the bytes of the record does not). *)
Variable extract_eofbit : list Byte.byte → Value → bool.

(** [insert] hands the value itself to the index, whose entries are
    [std::streamoff]s; this is the conversion that call needs. *)
Variable offset_of_value : Value → Z.

Record DataLake := mkDataLake {
  path : string;
  map : gmap Key Value;
  m_index : gmap Key (list Z);
  m_filename : string;
  m_directory : string
}.

Definition set_m_index (idx : gmap Key (list Z)) (s : DataLake) : DataLake :=
  mkDataLake (path s) (map s) idx (m_filename s) (m_directory s).

Definition set_m_filename (f : string) (s : DataLake) : DataLake :=
  mkDataLake (path s) (map s) (m_index s) f (m_directory s).

Definition set_m_directory (d : string) (s : DataLake) : DataLake :=
  mkDataLake (path s) (map s) (m_index s) (m_filename s) d.

(** Modelled from the spec: the call [m_index(key, offset)] of [insert] and
    [index_directory]; [std::map] has no call operator and the repository
    defines none.  The spec's Key Index operation [record(key, location)]
    "appends location to the key's list, creating the list if absent". *)
Definition record (idx : gmap Key (list Z)) (key : Key) (offset : Z)
  : gmap Key (list Z) :=
  <[key := default [] (idx !! key) ++ [offset]]> idx.

(** [map.insert({key, value})] on the [std::unordered_map]: a key that is
    already present keeps its value. *)
Definition map_insert (m : gmap Key Value) (key : Key) (value : Value)
  : gmap Key Value :=
  match m !! key with
  | Some _ => m
  | None => <[key := value]> m
  end.

(** *** Constructor *)

(** The loop [while (extractPolicy(file, value)) map.insert(...)], with
    [pos] the get position of [file]. *)
Fixpoint load_map (fuel : nat) (content : list Byte.byte) (pos : nat)
    (value : Value) (m : gmap Key Value) : option (gmap Key Value) :=
  match fuel with
  | O => None
  | S fuel' =>
      match extractPolicy (drop pos content) value with
      | (value', Some n) =>
          load_map fuel' content (pos + n) value'
            (map_insert m (getKey value') value')
      | (_, None) => Some m
      end
  end.

(** [DataLake(path)]: only [path] and [map] are set; the index is empty
    and [m_filename] and [m_directory] are empty paths. *)
Definition DataLake_new (fuel : nat) (fs : filesystem) (p : string)
  : option DataLake :=
  match fs_file fs !! p with
  | Some content =>
      (λ m, mkDataLake p m ∅ EmptyString EmptyString)
        <$> load_map fuel content 0 Value_default ∅
  | None => Some (mkDataLake p ∅ ∅ EmptyString EmptyString)
  end.

(** *** insert *)

Definition insert (s : DataLake) (fs : filesystem) (key : Key) (value : Value)
  : DataLake * filesystem :=
  match open_append fs (m_filename s) with
  | Some old =>
      (set_m_index (record (m_index s) key (offset_of_value value)) s,
       write_file fs (m_filename s) (old ++ insertPolicy value))
  | None => (s, fs)
  end.

(** *** operator[] *)

(** The body of the loop over the offsets of one key: open [m_filename],
    seek, extract, push back.  The result of the extraction is not
    tested: [value] is pushed in whatever state the policy left it. *)
Definition read_at (content : list Byte.byte) (offset : Z) : Value :=
  fst (extractPolicy (seekg content offset) Value_default).

Definition push_value (s : DataLake) (fs : filesystem)
    (values : list Value) (offset : Z) : list Value :=
  match fs_file fs !! m_filename s with
  | Some content => values ++ [read_at content offset]
  | None => values
  end.

Definition operator_subscript (s : DataLake) (fs : filesystem) (key : Key)
  : list Value :=
  match m_index s !! key with
  | Some offsets => foldl (push_value s fs) [] offsets
  | None => []
  end.

(** *** remove, clear_index *)

Definition remove (s : DataLake) (key : Key) : DataLake :=
  match m_index s !! key with
  | Some _ => set_m_index (delete key (m_index s)) s
  | None => s
  end.

Definition clear_index (s : DataLake) : DataLake := set_m_index ∅ s.

(** *** index_directory *)

(** [in.tellg()] after an extraction that took [n] bytes from [unread],
    read at position [pos]: the position reached, or -1 when the extraction
    left [eofbit] set, for then [tellg] finds the stream not good, sets
    [failbit] and returns -1.  [eofbit] is raised by a read that runs into
    the end of the file, so it can only be set when the extraction took all
    that was left; the stream then fails at the next extraction, which has
    nothing to read. *)
Definition tellg (unread : list Byte.byte) (value : Value) (pos n : nat) : Z :=
  if extract_eofbit unread value && bool_decide (length unread ≤ n)
  then (-1)%Z
  else Z.of_nat (pos + n).

(** The loop [while (extractPolicy(in, value)) m_index(value.getKey(),
    in.tellg())]: [in.tellg()] is read after the extraction, so it is the
    position reached by it. *)
Fixpoint scan_file (fuel : nat) (content : list Byte.byte) (pos : nat)
    (value : Value) (idx : gmap Key (list Z)) : option (gmap Key (list Z)) :=
  match fuel with
  | O => None
  | S fuel' =>
      match extractPolicy (drop pos content) value with
      | (value', Some n) =>
          scan_file fuel' content (pos + n) value'
            (record idx (getKey value')
               (tellg (drop pos content) value pos n))
      | (_, None) => Some idx
      end
  end.

(** The loop over the directory entries. *)
Fixpoint scan_entries (fuel : nat) (fs : filesystem) (entries : list dirent)
    (s : DataLake) : option DataLake :=
  match entries with
  | [] => Some s
  | entry :: rest =>
      if ent_regular entry then
        let s1 := set_m_filename (ent_path entry) s in
        match fs_file fs !! ent_path entry with
        | Some content =>
            match scan_file fuel content 0 Value_default (m_index s1) with
            | Some idx => scan_entries fuel fs rest (set_m_index idx s1)
            | None => None
            end
        | None => scan_entries fuel fs rest s1
        end
      else scan_entries fuel fs rest s
  end.

(** [index_directory(d)]; [directory_iterator] throws when [d] is not a
    directory. *)
Definition index_directory (fuel : nat) (fs : filesystem) (d : string)
    (s : DataLake) : outcome DataLake :=
  match fs_dir fs !! d with
  | None => FilesystemError
  | Some entries =>
      match scan_entries fuel fs entries (set_m_directory d s) with
      | Some s' => Done s'
      | None => OutOfFuel
      end
  end.

(** *** getOffset *)

(** [it->second.back()], or -1 for a key that is not indexed.  [None] is
    the undefined [back()] of an empty vector. *)
Definition getOffset (s : DataLake) (key : Key) : option Z :=
  match m_index s !! key with
  | Some offsets => last offsets
  | None => Some (-1)%Z
  end.

(** ** What a scan finds *)

(** [record] applied to a sequence of (key, offset) pairs, first to last. *)
Definition record_all (idx : gmap Key (list Z)) (pairs : list (Key * Z))
  : gmap Key (list Z) :=
  foldl (λ i p, record i p.1 p.2) idx pairs.

(** The offsets paired with [key], in order. *)
Definition offsets_of (key : Key) (pairs : list (Key * Z)) : list Z :=
  (filter (λ p, p.1 = key) pairs).*2.

(** The (key, offset) pairs that the loop of [scan_file] passes to the
    index, in order; [None] when the fuel runs out. *)
Fixpoint file_pairs (fuel : nat) (content : list Byte.byte) (pos : nat)
    (value : Value) : option (list (Key * Z)) :=
  match fuel with
  | O => None
  | S fuel' =>
      match extractPolicy (drop pos content) value with
      | (value', Some n) =>
          cons (getKey value', tellg (drop pos content) value pos n)
            <$> file_pairs fuel' content (pos + n) value'
      | (_, None) => Some []
      end
  end.

(** The values that the loop of [load_map] passes to [map], in order. *)
Fixpoint file_values (fuel : nat) (content : list Byte.byte) (pos : nat)
    (value : Value) : option (list Value) :=
  match fuel with
  | O => None
  | S fuel' =>
      match extractPolicy (drop pos content) value with
      | (value', Some n) =>
          cons value' <$> file_values fuel' content (pos + n) value'
      | (_, None) => Some []
      end
  end.

(** The pairs found in all the files of a directory listing. *)
Fixpoint dir_pairs (fuel : nat) (fs : filesystem) (entries : list dirent)
  : option (list (Key * Z)) :=
  match entries with
  | [] => Some []
  | entry :: rest =>
      if ent_regular entry then
        match fs_file fs !! ent_path entry with
        | Some content =>
            match file_pairs fuel content 0 Value_default with
            | Some ps => app ps <$> dir_pairs fuel fs rest
            | None => None
            end
        | None => dir_pairs fuel fs rest
        end
      else dir_pairs fuel fs rest
  end.

(** The path left in [m_filename] by the loop over the entries: that of
    the last regular file, or the previous one when there is none. *)
Definition last_regular (entries : list dirent) (f : string) : string :=
  foldl (λ f entry, if ent_regular entry then ent_path entry else f) f entries.

(** A successful extraction reads at least one byte and no more than the
    stream holds. *)
Definition extract_progress : Prop :=
  ∀ unread value value' n,
    extractPolicy unread value = (value', Some n) → 0 < n ≤ length unread.

(** [fuel] exceeds the length of every file of the listing. *)
Definition fuel_covers (fuel : nat) (fs : filesystem) (entries : list dirent)
  : Prop :=
  Forall (λ entry, ∀ content,
            fs_file fs !! ent_path entry = Some content →
            length content < fuel) entries.

(** What extraction must do on the bytes written by [insertPolicy]. *)
Definition codec_roundtrip : Prop :=
  ∀ v rest value,
    extractPolicy (insertPolicy v ++ rest) value
      = (v, Some (length (insertPolicy v)))
    ∧ 0 < length (insertPolicy v).

(** The bytes of a sequence of records, and the pairs that a scan records
    for them when they stand at position [pos] of a file, followed by the
    bytes [rest], and [value] is the value last extracted: each record under
    its own key, with what [tellg] returns once it has been read. *)
Definition encode_all (vs : list Value) : list Byte.byte :=
  concat (insertPolicy <$> vs).

Fixpoint encoded_pairs (pos : nat) (value : Value) (vs : list Value)
    (rest : list Byte.byte) : list (Key * Z) :=
  match vs with
  | [] => []
  | v :: vs' =>
      (getKey v,
       tellg (insertPolicy v ++ encode_all vs' ++ rest) value pos
         (length (insertPolicy v)))
      :: encoded_pairs (pos + length (insertPolicy v)) v vs' rest
  end.

(** A log file as a scan meets it: its path, the records it begins with and
    the bytes after them. *)
Record log_file := mkLogFile {
  log_path : string;
  log_records : list Value;
  log_rest : list Byte.byte
}.

(** The file system holds the log file, nothing can be extracted from the
    bytes after its records (none are left, or they are a truncated or
    damaged record, whatever follows it), and [fuel] exceeds the number of
    its records. *)
Definition log_ends_unreadable (fuel : nat) (fs : filesystem) (file : log_file)
  : Prop :=
  fs_file fs !! log_path file
    = Some (encode_all (log_records file) ++ log_rest file)
  ∧ (∀ value, (extractPolicy (log_rest file) value).2 = None)
  ∧ length (log_records file) < fuel.

(** The pairs that a scan records for a sequence of log files. *)
Definition logged_pairs (files : list log_file) : list (Key * Z) :=
  concat ((λ file, encoded_pairs 0 Value_default (log_records file)
                     (log_rest file)) <$> files).

(** Every vector of the index holds at least one offset. *)
Definition index_nonempty (idx : gmap Key (list Z)) : Prop :=
  ∀ key offsets, idx !! key = Some offsets → offsets ≠ [].

(** In a sequence of records, the record that follows each record of [key];
    after the last record, what an extraction from an exhausted stream
    leaves in a default-initialised value. *)
Fixpoint followers (key : Key) (vs : list Value) : list Value :=
  match vs with
  | [] => []
  | v :: rest =>
      (if decide (getKey v = key)
       then [match rest with
             | w :: _ => w
             | [] => (extractPolicy [] Value_default).1
             end]
       else [])
      ++ followers key rest
  end.

(** ** Opening and writing files *)

Lemma fs_file_write_file fs p content :
  fs_file (write_file fs p content) = <[p := content]> (fs_file fs).
Proof. unfold write_file. by destruct (fs_file fs !! p). Qed.

Lemma open_append_existing fs p content :
  p ≠ EmptyString → fs_file fs !! p = Some content →
  open_append fs p = Some content.
Proof.
  intros Hp Hfile. unfold open_append. by rewrite decide_False, Hfile.
Qed.

Lemma write_file_existing fs p old content :
  fs_file fs !! p = Some old →
  write_file fs p content
    = mkFilesystem (<[p := content]> (fs_file fs)) (fs_dir fs) (fs_slot fs).
Proof. intros Hfile. unfold write_file. by rewrite Hfile. Qed.

(** [tellg] returns the position reached unless the extraction took all
    that was left. *)
Lemma tellg_inside unread value pos n :
  n < length unread → tellg unread value pos n = Z.of_nat (pos + n).
Proof.
  intros Hn. unfold tellg. rewrite bool_decide_eq_false_2 by lia.
  by rewrite andb_false_r.
Qed.

Lemma tellg_at_end unread value pos n :
  length unread ≤ n →
  tellg unread value pos n
    = if extract_eofbit unread value then (-1)%Z else Z.of_nat (pos + n).
Proof.
  intros Hn. unfold tellg. rewrite bool_decide_eq_true_2 by lia.
  by rewrite andb_true_r.
Qed.

(** ** The loops as folds over what they find *)

Lemma scan_file_pairs fuel content pos value idx :
  scan_file fuel content pos value idx
    = record_all idx <$> file_pairs fuel content pos value.
Proof.
  revert pos value idx.
  induction fuel as [|fuel IH]; intros pos value idx; simpl; [done|].
  destruct (extractPolicy (drop pos content) value) as [value' [n|]]; [|done].
  rewrite IH. by destruct (file_pairs fuel content (pos + n) value').
Qed.

Lemma load_map_values fuel content pos value m :
  load_map fuel content pos value m
    = foldl (λ m v, map_insert m (getKey v) v) m
        <$> file_values fuel content pos value.
Proof.
  revert pos value m.
  induction fuel as [|fuel IH]; intros pos value m; simpl; [done|].
  destruct (extractPolicy (drop pos content) value) as [value' [n|]]; [|done].
  rewrite IH. by destruct (file_values fuel content (pos + n) value').
Qed.

Lemma record_all_app idx ps qs :
  record_all idx (ps ++ qs) = record_all (record_all idx ps) qs.
Proof. apply foldl_app. Qed.

Lemma last_regular_app es1 es2 f :
  last_regular (es1 ++ es2) f = last_regular es2 (last_regular es1 f).
Proof. apply foldl_app. Qed.

Lemma scan_entries_pairs fuel fs entries s :
  scan_entries fuel fs entries s
    = (λ ps, mkDataLake (path s) (map s) (record_all (m_index s) ps)
               (last_regular entries (m_filename s)) (m_directory s))
        <$> dir_pairs fuel fs entries.
Proof.
  revert s. induction entries as [|entry rest IH]; intros s; simpl.
  { by destruct s. }
  destruct (ent_regular entry); [|apply IH].
  destruct (fs_file fs !! ent_path entry) as [content|]; [|by rewrite IH].
  rewrite scan_file_pairs. simpl.
  destruct (file_pairs fuel content 0 Value_default) as [ps|]; simpl; [|done].
  rewrite IH. simpl.
  destruct (dir_pairs fuel fs rest) as [qs|]; simpl; [|done].
  by rewrite record_all_app.
Qed.

(** [index_directory] in one equation. *)
Lemma index_directory_eq fuel fs d s :
  index_directory fuel fs d s =
    match fs_dir fs !! d with
    | None => FilesystemError
    | Some entries =>
        match dir_pairs fuel fs entries with
        | Some ps =>
            Done (mkDataLake (path s) (map s) (record_all (m_index s) ps)
                    (last_regular entries (m_filename s)) d)
        | None => OutOfFuel
        end
    end.
Proof.
  unfold index_directory. destruct (fs_dir fs !! d) as [entries|]; [|done].
  rewrite scan_entries_pairs. simpl.
  by destruct (dir_pairs fuel fs entries).
Qed.

(** ** Termination of the loops *)

Lemma file_pairs_terminates fuel content pos value :
  extract_progress → length content - pos < fuel →
  is_Some (file_pairs fuel content pos value).
Proof.
  intros Hprog. revert pos value.
  induction fuel as [|fuel IH]; intros pos value Hlen; simpl; [lia|].
  destruct (extractPolicy (drop pos content) value) as [value' [n|]] eqn:E;
    [|by eexists].
  apply Hprog in E. rewrite length_drop in E.
  destruct (IH (pos + n) value') as [ps ->]; [lia|]. by eexists.
Qed.

Lemma file_values_terminates fuel content pos value :
  extract_progress → length content - pos < fuel →
  is_Some (file_values fuel content pos value).
Proof.
  intros Hprog. revert pos value.
  induction fuel as [|fuel IH]; intros pos value Hlen; simpl; [lia|].
  destruct (extractPolicy (drop pos content) value) as [value' [n|]] eqn:E;
    [|by eexists].
  apply Hprog in E. rewrite length_drop in E.
  destruct (IH (pos + n) value') as [ps ->]; [lia|]. by eexists.
Qed.

Lemma dir_pairs_terminates fuel fs entries :
  extract_progress → fuel_covers fuel fs entries →
  is_Some (dir_pairs fuel fs entries).
Proof.
  intros Hprog. induction entries as [|entry rest IH]; intros Hcov; simpl.
  { by eexists. }
  apply Forall_cons in Hcov as [Hentry Hrest].
  destruct (ent_regular entry); [|by apply IH].
  destruct (fs_file fs !! ent_path entry) as [content|] eqn:E; [|by apply IH].
  destruct (file_pairs_terminates fuel content 0 Value_default Hprog) as [ps ->].
  { specialize (Hentry content eq_refl). lia. }
  destruct (IH Hrest) as [qs ->]. by eexists.
Qed.

(** With a codec that makes progress and enough fuel, [index_directory]
    on an existing directory returns. *)
Lemma index_directory_done fuel fs d entries s :
  extract_progress → fs_dir fs !! d = Some entries →
  fuel_covers fuel fs entries →
  ∃ ps, dir_pairs fuel fs entries = Some ps
    ∧ index_directory fuel fs d s
        = Done (mkDataLake (path s) (map s) (record_all (m_index s) ps)
                  (last_regular entries (m_filename s)) d).
Proof.
  intros Hprog Hd Hcov.
  destruct (dir_pairs_terminates fuel fs entries Hprog Hcov) as [ps Hps].
  exists ps. split; [done|]. by rewrite index_directory_eq, Hd, Hps.
Qed.

(** ** Lookups in an index built by [record] *)

Lemma lookup_record idx key offset k :
  record idx key offset !! k
    = if decide (key = k) then Some (default [] (idx !! key) ++ [offset])
      else idx !! k.
Proof. unfold record. apply lookup_insert. Qed.

Lemma offsets_of_cons k key offset ps :
  offsets_of k ((key, offset) :: ps)
    = if decide (key = k) then offset :: offsets_of k ps else offsets_of k ps.
Proof.
  unfold offsets_of. rewrite filter_cons. simpl. by destruct (decide (key = k)).
Qed.

Lemma record_all_lookup idx ps k :
  record_all idx ps !! k
    = match offsets_of k ps with
      | [] => idx !! k
      | offsets => Some (default [] (idx !! k) ++ offsets)
      end.
Proof.
  revert idx. induction ps as [|[key offset] ps IH]; intros idx; [done|].
  change (record_all idx ((key, offset) :: ps))
    with (record_all (record idx key offset) ps).
  rewrite IH, offsets_of_cons, lookup_record.
  destruct (decide (key = k)) as [->|]; [|done].
  simpl. destruct (offsets_of k ps); [done|].
  by rewrite <- app_assoc.
Qed.

Lemma record_all_offsets idx ps k :
  default [] (record_all idx ps !! k)
    = default [] (idx !! k) ++ offsets_of k ps.
Proof.
  rewrite record_all_lookup. destruct (offsets_of k ps); [|done].
  by rewrite app_nil_r.
Qed.

(** ** Reading *)

Lemma foldl_push_value s fs values offsets :
  foldl (push_value s fs) values offsets
    = values ++
      match fs_file fs !! m_filename s with
      | Some content => read_at content <$> offsets
      | None => []
      end.
Proof.
  revert values. induction offsets as [|o offsets IH]; intros values; simpl.
  { destruct (fs_file fs !! m_filename s); by rewrite app_nil_r. }
  rewrite IH. unfold push_value.
  destruct (fs_file fs !! m_filename s); [|done].
  by rewrite <- app_assoc.
Qed.

(** [operator[]] in one equation: every offset of the key is read in the
    file named by [m_filename]. *)
Lemma operator_subscript_eq s fs key :
  operator_subscript s fs key
    = match fs_file fs !! m_filename s with
      | Some content => read_at content <$> default [] (m_index s !! key)
      | None => []
      end.
Proof.
  unfold operator_subscript.
  destruct (m_index s !! key) as [offsets|]; simpl.
  - by rewrite foldl_push_value.
  - by destruct (fs_file fs !! m_filename s).
Qed.

(** ** The constructor *)

Lemma foldl_map_insert_lookup (m : gmap Key Value) values key :
  foldl (λ m v, map_insert m (getKey v) v) m values !! key
    = match m !! key with
      | Some v => Some v
      | None => head (filter (λ v, getKey v = key) values)
      end.
Proof.
  revert m. induction values as [|v values IH]; intros m; simpl.
  { by destruct (m !! key). }
  rewrite IH, filter_cons. unfold map_insert.
  destruct (m !! getKey v) as [w|] eqn:E.
  - destruct (decide (getKey v = key)) as [<-|]; [by rewrite E|done].
  - rewrite lookup_insert.
    destruct (decide (getKey v = key)) as [<-|]; [by rewrite E|done].
Qed.

Lemma DataLake_new_fields fuel fs p s :
  DataLake_new fuel fs p = Some s →
  path s = p ∧ m_index s = ∅
  ∧ m_filename s = EmptyString ∧ m_directory s = EmptyString.
Proof.
  unfold DataLake_new. destruct (fs_file fs !! p) as [content|].
  - destruct (load_map fuel content 0 Value_default ∅); simpl; [|done].
    by intros [= <-].
  - by intros [= <-].
Qed.

(** ** Records written by the codec *)

Lemma file_pairs_encoded rest :
  codec_roundtrip → (∀ value, (extractPolicy rest value).2 = None) →
  ∀ vs prefix value fuel,
    length vs < fuel →
    file_pairs fuel (prefix ++ encode_all vs ++ rest) (length prefix) value
      = Some (encoded_pairs (length prefix) value vs rest).
Proof.
  intros Hrt Hrest vs.
  induction vs as [|v vs IH]; intros prefix value [|fuel] Hlen;
    simpl in Hlen; try lia; cbn [file_pairs encoded_pairs];
    rewrite drop_app_length.
  - specialize (Hrest value). change (encode_all [] ++ rest) with rest.
    by destruct (extractPolicy rest value) as [value' [n|]].
  - change (encode_all (v :: vs)) with (insertPolicy v ++ encode_all vs).
    rewrite <- (app_assoc (insertPolicy v) (encode_all vs) rest).
    destruct (Hrt v (encode_all vs ++ rest) value) as [-> _].
    rewrite <- length_app, (app_assoc prefix).
    rewrite IH; [|lia]. by rewrite length_app.
Qed.

Lemma file_values_encoded rest :
  codec_roundtrip → (∀ value, (extractPolicy rest value).2 = None) →
  ∀ vs prefix value fuel,
    length vs < fuel →
    file_values fuel (prefix ++ encode_all vs ++ rest) (length prefix) value
      = Some vs.
Proof.
  intros Hrt Hrest vs.
  induction vs as [|v vs IH]; intros prefix value [|fuel] Hlen;
    simpl in Hlen; try lia; cbn [file_values];
    rewrite drop_app_length.
  - specialize (Hrest value). change (encode_all [] ++ rest) with rest.
    by destruct (extractPolicy rest value) as [value' [n|]].
  - change (encode_all (v :: vs)) with (insertPolicy v ++ encode_all vs).
    rewrite <- app_assoc.
    destruct (Hrt v (encode_all vs ++ rest) value) as [-> _].
    rewrite <- length_app, app_assoc.
    by rewrite IH; [|lia].
Qed.

Lemma extract_nil_fails value :
  extract_progress → (extractPolicy [] value).2 = None.
Proof.
  intros Hprog.
  destruct (extractPolicy [] value) as [value' [n|]] eqn:E; [|done].
  apply Hprog in E. simpl in E. lia.
Qed.

Lemma last_regular_filter entries before f f0 :
  filter (λ entry, ent_regular entry = true) entries = before ++ [f] →
  last_regular entries f0 = ent_path f.
Proof.
  revert before.
  induction entries as [|entry entries IH] using rev_ind; intros before.
  { by destruct before. }
  rewrite filter_app, last_regular_app, filter_cons, filter_nil. simpl.
  destruct (ent_regular entry) eqn:E; simpl.
  - by intros [_ ->]%app_inj_tail.
  - rewrite app_nil_r. apply IH.
Qed.

Lemma last_regular_idem entries f :
  last_regular entries (last_regular entries f) = last_regular entries f.
Proof.
  induction entries as [|entry entries IH] using rev_ind; [done|].
  rewrite !last_regular_app. simpl.
  destruct (ent_regular entry); [done|].
  apply IH.
Qed.

Lemma dir_pairs_filter fuel fs fs' entries :
  fs_file fs' = fs_file fs →
  dir_pairs fuel fs' (filter (λ entry, ent_regular entry = true) entries)
    = dir_pairs fuel fs entries.
Proof.
  intros Hfiles. induction entries as [|entry entries IH]; [done|].
  rewrite filter_cons. simpl.
  destruct (ent_regular entry) eqn:E; simpl; [|done].
  rewrite E, Hfiles, IH. done.
Qed.

Lemma last_regular_filter_eq entries f :
  last_regular (filter (λ entry, ent_regular entry = true) entries) f
    = last_regular entries f.
Proof.
  revert f. induction entries as [|entry entries IH]; intros f; [done|].
  rewrite filter_cons. simpl.
  destruct (ent_regular entry) eqn:E; simpl; [|done].
  by rewrite E, IH.
Qed.

Lemma dir_pairs_logs fuel fs files :
  codec_roundtrip → Forall (log_ends_unreadable fuel fs) files →
  dir_pairs fuel fs ((λ file, mkDirent (log_path file) true) <$> files)
    = Some (logged_pairs files).
Proof.
  intros Hrt. induction 1 as [|file files (Hfile & Hrest & Hlen) _ IH]; [done|].
  rewrite fmap_cons. cbn [dir_pairs ent_regular ent_path]. rewrite Hfile.
  pose proof (file_pairs_encoded (log_rest file) Hrt Hrest (log_records file)
                [] Value_default fuel Hlen) as Hpairs.
  simpl in Hpairs. rewrite Hpairs, IH. done.
Qed.

(** ** Properties of the operations *)

(** C1, as the code has it.  The constructor leaves [m_filename] empty, so
    on a newly constructed lake [insert] cannot open its file: nothing is
    written, nothing is indexed, and the lookup finds nothing.  On a lake
    with an empty index whose [m_filename] names an empty file, [insert]
    writes the record at offset 0 but indexes the value
    itself: the lookup decodes at [offset_of_value value], not at the
    offset at which the record began. *)
Theorem insert_then_lookup_on_empty_lake fuel fs p s s' key value :
  DataLake_new fuel fs p = Some s →
  m_index s' = ∅ → m_filename s' ≠ EmptyString →
  fs_file fs !! m_filename s' = Some [] →
  (insert s fs key value = (s, fs) ∧ operator_subscript s fs key = [])
  ∧ insert s' fs key value
      = (set_m_index {[ key := [offset_of_value value] ]} s',
         write_file fs (m_filename s') (insertPolicy value))
  ∧ operator_subscript (insert s' fs key value).1 (insert s' fs key value).2 key
      = [read_at (insertPolicy value) (offset_of_value value)].
Proof.
  intros (_ & Hidx & Hfile & _)%DataLake_new_fields Hidx' Hfile' Hempty.
  assert (insert s' fs key value
            = (set_m_index {[ key := [offset_of_value value] ]} s',
               write_file fs (m_filename s') (insertPolicy value))) as Hins.
  { unfold insert, open_append. rewrite decide_False by done.
    rewrite Hempty, Hidx'. unfold record. by rewrite lookup_empty. }
  split; [split|split].
  - unfold insert, open_append. by rewrite Hfile.
  - unfold operator_subscript. by rewrite Hidx, lookup_empty.
  - done.
  - rewrite Hins, operator_subscript_eq. simpl.
    by rewrite fs_file_write_file, lookup_insert_eq, lookup_singleton_eq.
Qed.

(** C4, amended.  [index_directory] does not empty the index: it returns
    the index it was given with the pairs recorded by the scan appended.
    Called on a lake whose index [clear_index] has emptied, it returns an
    index that holds exactly the pairs recorded by the scan. *)
Theorem index_directory_appends_to_index fuel fs d entries s :
  extract_progress → fs_dir fs !! d = Some entries →
  fuel_covers fuel fs entries →
  ∃ pairs s1 s2,
    dir_pairs fuel fs entries = Some pairs
    ∧ index_directory fuel fs d s = Done s1
    ∧ m_index s1 = record_all (m_index s) pairs
    ∧ (∀ key, default [] (m_index s1 !! key)
                = default [] (m_index s !! key) ++ offsets_of key pairs)
    ∧ index_directory fuel fs d (clear_index s) = Done s2
    ∧ m_index s2 = record_all ∅ pairs
    ∧ (∀ key, default [] (m_index s2 !! key) = offsets_of key pairs).
Proof.
  intros Hprog Hd Hcov.
  destruct (index_directory_done fuel fs d entries s Hprog Hd Hcov)
    as (pairs & Hpairs & Hrun).
  destruct (index_directory_done fuel fs d entries (clear_index s) Hprog Hd Hcov)
    as (pairs' & Hpairs' & Hrun').
  rewrite Hpairs in Hpairs'. injection Hpairs' as <-.
  eexists pairs, _, _. repeat split; try done; simpl.
  - intros key. apply record_all_offsets.
  - intros key. by rewrite record_all_offsets, lookup_empty.
Qed.

(** C5, amended.  Emptying the index with [clear_index] and then calling
    [index_directory] is idempotent: repeated on its own result it returns
    that very state.  [index_directory] alone is not: repeated, it records
    every offset of the scan a second time. *)
Theorem clear_then_index_directory_idempotent fuel fs d s s1 :
  index_directory fuel fs d (clear_index s) = Done s1 →
  index_directory fuel fs d (clear_index s1) = Done s1
  ∧ ∃ s2, index_directory fuel fs d s1 = Done s2
      ∧ ∀ key, default [] (m_index s2 !! key)
                 = default [] (m_index s1 !! key) ++ default [] (m_index s1 !! key).
Proof.
  rewrite !index_directory_eq.
  destruct (fs_dir fs !! d) as [entries|]; [|done].
  destruct (dir_pairs fuel fs entries) as [pairs|]; [|done].
  intros [= <-]. simpl. split.
  - by rewrite last_regular_idem.
  - eexists. split; [done|]. intros key. simpl.
    by rewrite !record_all_offsets, lookup_empty.
Qed.

(** C7, amended.  The scan of a file ends at the first extraction that
    fails, wherever it is, reports nothing, and the scan goes on with the
    next file: for a directory whose regular files each hold some records
    followed by bytes on which extraction fails (none, a truncated last
    record, or a damaged record with well-formed records after it),
    [index_directory] returns normally, with exactly the pairs of those
    leading records recorded, file after file in the order of the listing,
    and the last regular file left as current file; and over any existing
    directory it returns normally whatever the files hold. *)
Theorem scan_ends_silently_at_first_failure fuel fs d entries files s :
  codec_roundtrip →
  fs_dir fs !! d = Some entries →
  filter (λ entry, ent_regular entry = true) entries
    = (λ file, mkDirent (log_path file) true) <$> files →
  Forall (log_ends_unreadable fuel fs) files →
  index_directory fuel fs d s
    = Done (mkDataLake (path s) (map s)
              (record_all (m_index s) (logged_pairs files))
              (last_regular entries (m_filename s)) d)
  ∧ (extract_progress →
     ∀ fs' d' entries', fs_dir fs' !! d' = Some entries' →
       ∃ fuel' s', index_directory fuel' fs' d' s = Done s').
Proof.
  intros Hrt Hd Hfiles Hlogs. split.
  - rewrite index_directory_eq, Hd.
    rewrite <- (dir_pairs_filter fuel fs fs entries eq_refl), Hfiles.
    by rewrite (dir_pairs_logs fuel fs files Hrt Hlogs).
  - intros Hprog fs' d' entries' Hd'.
    set (bound := S (foldr (λ entry n,
                      n `max` length (default [] (fs_file fs' !! ent_path entry)))
                    0 entries')).
    destruct (index_directory_done bound fs' d' entries' s Hprog Hd')
      as (ps & _ & Hrun); [|by eauto].
    unfold fuel_covers, bound. clear.
    induction entries' as [|entry entries' IH]; [constructor|].
    constructor.
    + intros content Hc. simpl. rewrite Hc. simpl. lia.
    + eapply Forall_impl; [apply IH|]. simpl.
      intros e He content Hc. specialize (He content Hc). lia.
Qed.

(** C8.  For a key that is absent from the index, [operator[]] returns the
    empty vector and [getOffset] returns -1, the stand-in for no offset;
    both are total functions, no failure is possible. *)
Theorem missing_key_is_not_an_error s fs key :
  m_index s !! key = None →
  operator_subscript s fs key = [] ∧ getOffset s key = Some (-1)%Z.
Proof.
  intros Hkey. unfold operator_subscript, getOffset. by rewrite Hkey.
Qed.

(** C9.  [operator[]] reads every offset of a key in the one file named by
    [m_filename], and [insert] writes to that file and leaves the name
    unchanged.  After [index_directory] over a directory with at least one
    regular file, [m_filename] is the last regular file enumerated: every
    lookup, for every key, decodes from that file alone, whichever file
    the offset was recorded from. *)
Theorem lookup_reads_last_enumerated_file fuel fs d entries before f s s' :
  fs_dir fs !! d = Some entries →
  filter (λ entry, ent_regular entry = true) entries = before ++ [f] →
  index_directory fuel fs d s = Done s' →
  m_filename s' = ent_path f
  ∧ (∀ fs' key,
       operator_subscript s' fs' key
         = match fs_file fs' !! ent_path f with
           | Some content => read_at content <$> default [] (m_index s' !! key)
           | None => []
           end)
  ∧ (∀ fs' key value,
       m_filename (insert s' fs' key value).1 = ent_path f
       ∧ ∀ g, g ≠ ent_path f →
           fs_file (insert s' fs' key value).2 !! g = fs_file fs' !! g).
Proof.
  intros Hd Hlast. rewrite index_directory_eq, Hd.
  destruct (dir_pairs fuel fs entries) as [ps|]; [|done].
  intros [= <-].
  assert (last_regular entries (m_filename s) = ent_path f) as Hname
    by (by eapply last_regular_filter).
  split; [done|]. split.
  - intros fs' key. rewrite operator_subscript_eq. simpl. by rewrite Hname.
  - intros fs' key value. unfold insert. simpl. rewrite Hname.
    destruct (open_append fs' (ent_path f)); simpl; [|done].
    split; [done|]. intros g Hg.
    by rewrite fs_file_write_file, lookup_insert_ne.
Qed.

(** C10.  The constructor decodes the file at [path], up to the first
    extraction that fails (all of [vs] when the file holds the records of
    [vs] as the codec writes them), into [map], which keeps for each key the
    first value decoded with that key; the index stays empty, so right after
    construction every lookup returns the empty vector and [getOffset]
    returns -1.  [operator[]] and [getOffset] do not read [map]. *)
Theorem constructor_fills_map_not_index fuel fs p :
  extract_progress →
  (∀ content, fs_file fs !! p = Some content → length content < fuel) →
  ∃ s values,
    DataLake_new fuel fs p = Some s
    ∧ match fs_file fs !! p with
      | Some content => file_values fuel content 0 Value_default = Some values
      | None => values = []
      end
    ∧ (∀ vs, codec_roundtrip → fs_file fs !! p = Some (encode_all vs) →
             values = vs)
    ∧ (∀ key, map s !! key = head (filter (λ v, getKey v = key) values))
    ∧ m_index s = ∅
    ∧ (∀ fs' key, operator_subscript s fs' key = []
                  ∧ getOffset s key = Some (-1)%Z)
    ∧ (∀ m fs' key,
         let s' := mkDataLake (path s) m (m_index s) (m_filename s)
                     (m_directory s) in
         operator_subscript s' fs' key = operator_subscript s fs' key
         ∧ getOffset s' key = getOffset s key).
Proof.
  intros Hprog Hlen. unfold DataLake_new.
  destruct (fs_file fs !! p) as [content|].
  - rewrite load_map_values.
    specialize (Hlen content eq_refl).
    destruct (file_values_terminates fuel content 0 Value_default Hprog)
      as [values Hvalues]; [lia|].
    rewrite Hvalues. revert Hvalues.
    intros Hvalues. eexists _, values. simpl. repeat split; try done.
    + intros vs Hrt [= ->].
      pose proof (file_values_encoded [] Hrt
                    (λ value, extract_nil_fails value Hprog)
                    vs [] Value_default fuel) as Hvs.
      simpl in Hvs. rewrite app_nil_r in Hvs.
      rewrite Hvs in Hvalues; [by injection Hvalues|].
      assert (length vs ≤ length (encode_all vs)); [|lia].
      clear -Hrt. induction vs as [|v vs IH]; [done|].
      change (encode_all (v :: vs)) with (insertPolicy v ++ encode_all vs).
      rewrite length_app. destruct (Hrt v [] v) as [_ Hpos]. simpl. lia.
    + intros key. cbn [map].
      by rewrite foldl_map_insert_lookup, lookup_empty.
  - eexists _, []. simpl. repeat split; try done.
Qed.

(** ** Further properties of the lake *)

Lemma offsets_of_app key ps qs :
  offsets_of key (ps ++ qs) = offsets_of key ps ++ offsets_of key qs.
Proof. unfold offsets_of. by rewrite filter_app, fmap_app. Qed.

Lemma encode_all_app vs ws :
  encode_all (vs ++ ws) = encode_all vs ++ encode_all ws.
Proof. unfold encode_all. by rewrite fmap_app, concat_app. Qed.

Lemma encode_all_snoc vs v :
  encode_all (vs ++ [v]) = encode_all vs ++ insertPolicy v.
Proof.
  rewrite encode_all_app.
  change (encode_all [v]) with (insertPolicy v ++ []). by rewrite app_nil_r.
Qed.

Lemma encoded_pairs_app pos value vs ws rest :
  encoded_pairs pos value (vs ++ ws) rest
    = encoded_pairs pos value vs (encode_all ws ++ rest)
      ++ encoded_pairs (pos + length (encode_all vs))
           (default value (last vs)) ws rest.
Proof.
  revert pos value. induction vs as [|v vs IH]; intros pos value.
  { simpl. by rewrite Nat.add_0_r. }
  rewrite <- app_comm_cons. cbn [encoded_pairs].
  rewrite IH, encode_all_app, <- app_comm_cons, <- !app_assoc.
  do 3 f_equal.
  - change (encode_all (v :: vs)) with (insertPolicy v ++ encode_all vs).
    rewrite length_app. lia.
  - rewrite last_cons. by destruct (last vs).
Qed.

Lemma read_at_start before after :
  read_at (before ++ after) (Z.of_nat (length before))
    = (extractPolicy after Value_default).1.
Proof.
  unfold read_at, seekg.
  destruct (Z.of_nat (length before) <? 0)%Z eqn:E; [apply Z.ltb_lt in E; lia|].
  by rewrite Nat2Z.id, drop_app_length.
Qed.

Lemma record_nonempty idx key offset :
  index_nonempty idx → index_nonempty (record idx key offset).
Proof.
  intros Hidx k offsets. rewrite lookup_record.
  destruct (decide (key = k)); [|apply Hidx].
  intros [= <-]. by destruct (default [] (idx !! key)).
Qed.

Lemma record_all_nonempty idx pairs :
  index_nonempty idx → index_nonempty (record_all idx pairs).
Proof.
  revert idx. induction pairs as [|[key offset] pairs IH]; intros idx Hidx;
    [done|].
  apply IH. by apply record_nonempty.
Qed.

Lemma read_at_exhausted content offset :
  (offset < 0 ∨ Z.of_nat (length content) ≤ offset)%Z →
  read_at content offset = (extractPolicy [] Value_default).1.
Proof.
  intros Hout. unfold read_at, seekg.
  destruct (offset <? 0)%Z eqn:E; [done|].
  apply Z.ltb_ge in E. rewrite drop_ge; [done|lia].
Qed.

Lemma followers_offsets before value vs key :
  codec_roundtrip →
  read_at (before ++ encode_all vs)
    <$> offsets_of key (encoded_pairs (length before) value vs [])
    = followers key vs.
Proof.
  intros Hrt. revert before value.
  induction vs as [|v vs IH]; intros before value; [done|].
  cbn [encoded_pairs followers]. rewrite offsets_of_cons.
  change (encode_all (v :: vs)) with (insertPolicy v ++ encode_all vs).
  assert (read_at (before ++ insertPolicy v ++ encode_all vs)
            (tellg (insertPolicy v ++ encode_all vs ++ []) value
               (length before) (length (insertPolicy v)))
          = match vs with
            | w :: _ => w
            | [] => (extractPolicy [] Value_default).1
            end) as Hnext.
  { destruct vs as [|w vs].
    - rewrite tellg_at_end by (rewrite !length_app; simpl; lia).
      apply read_at_exhausted. rewrite !length_app. simpl.
      destruct (extract_eofbit _ _); lia.
    - change (encode_all (w :: vs)) with (insertPolicy w ++ encode_all vs).
      destruct (Hrt w (encode_all vs) Value_default) as [Hw Hpos].
      rewrite tellg_inside by (rewrite !length_app; lia).
      rewrite <- length_app, app_assoc, read_at_start. by rewrite Hw. }
  rewrite <- length_app.
  specialize (IH (before ++ insertPolicy v) v).
  rewrite <- app_assoc in IH.
  destruct (decide (getKey v = key)).
  - by rewrite fmap_cons, Hnext, IH.
  - by rewrite IH.
Qed.


(** [insert] on a lake whose [m_filename] does not name a file and cannot
    be created, because it names a directory or lies in a directory that
    does not exist, drops the value as it does for the empty path: the
    stream is not open, the lake and the file system are unchanged. *)
Theorem insert_on_unopenable_path_is_dropped s fs key value :
  fs_file fs !! m_filename s = None →
  is_Some (fs_dir fs !! m_filename s)
  ∨ (∃ d, parent_path (m_filename s) = Some d ∧ fs_dir fs !! d = None) →
  insert s fs key value = (s, fs).
Proof.
  intros Hnone Hwhy. unfold insert, open_append. rewrite Hnone.
  destruct (decide (m_filename s = EmptyString)); [done|].
  destruct Hwhy as [Hdir|(d & Hparent & Hmissing)].
  - by rewrite decide_True.
  - destruct (decide (is_Some (fs_dir fs !! m_filename s))); [done|].
    rewrite Hparent, decide_False; [done|].
    rewrite Hmissing. by intros [? ?].
Qed.

(** [insert] on a lake whose [m_filename] is empty, as the constructor
    leaves it, drops the value: the lake and the files are unchanged, and so
    is every later lookup. *)
Theorem insert_without_current_file_is_dropped s fs key value :
  m_filename s = EmptyString →
  insert s fs key value = (s, fs)
  ∧ ∀ k, operator_subscript (insert s fs key value).1
           (insert s fs key value).2 k
         = operator_subscript s fs k.
Proof.
  intros Hname.
  assert (insert s fs key value = (s, fs)) as ->; [|done].
  unfold insert, open_append. by rewrite Hname.
Qed.

(** [operator[]] returns one value for each offset stored under the key when
    the current file can be opened, whether or not anything could be decoded
    at that offset, and no value at all when the file cannot be opened. *)
Theorem lookup_returns_one_value_per_offset s fs key :
  length (operator_subscript s fs key)
    = match fs_file fs !! m_filename s with
      | Some _ => length (default [] (m_index s !! key))
      | None => 0
      end.
Proof.
  rewrite operator_subscript_eq.
  destruct (fs_file fs !! m_filename s); [apply length_fmap|done].
Qed.

(** The read path round-trips: when every offset stored under a key is the
    position at which the bytes of a record begin in the current file, and
    the codec reads back what it writes, [operator[]] returns those records
    in the order of the offsets. *)
Theorem lookup_at_record_starts s fs key content offsets values :
  codec_roundtrip →
  fs_file fs !! m_filename s = Some content →
  m_index s !! key = Some offsets →
  Forall2 (λ offset v, ∃ before after,
             content = before ++ insertPolicy v ++ after
             ∧ offset = Z.of_nat (length before)) offsets values →
  operator_subscript s fs key = values.
Proof.
  intros Hrt Hfile Hkey Hstarts.
  rewrite operator_subscript_eq, Hfile, Hkey. simpl. clear Hfile Hkey.
  induction Hstarts as [|offset v offsets values (before & after & -> & ->) _ IH];
    [done|].
  rewrite fmap_cons, IH, read_at_start.
  by destruct (Hrt v after Value_default) as [-> _].
Qed.

(** An offset outside the file, negative (as the -1 of [getOffset]) or at or
    beyond its end, reads as an exhausted stream: the value pushed is what
    the extraction leaves in a default-initialised value when nothing can be
    read. *)
Theorem read_outside_file content offset :
  (offset < 0 ∨ Z.of_nat (length content) ≤ offset)%Z →
  read_at content offset = (extractPolicy [] Value_default).1.
Proof.
  intros Hout. unfold read_at, seekg.
  destruct (offset <? 0)%Z eqn:E; [done|].
  apply Z.ltb_ge in E. rewrite drop_ge; [done|lia].
Qed.

(** [remove] forgets one key and nothing else: afterwards the lookup of the
    key is empty and its [getOffset] is -1, the lookups and [getOffset] of
    every other key are as before, and removing again changes nothing. *)
Theorem remove_forgets_one_key s fs key :
  operator_subscript (remove s key) fs key = []
  ∧ getOffset (remove s key) key = Some (-1)%Z
  ∧ (∀ k, k ≠ key →
       operator_subscript (remove s key) fs k = operator_subscript s fs k
       ∧ getOffset (remove s key) k = getOffset s k)
  ∧ remove (remove s key) key = remove s key
  ∧ m_filename (remove s key) = m_filename s.
Proof.
  assert (m_index (remove s key) !! key = None) as Hgone.
  { unfold remove. destruct (m_index s !! key) eqn:E; simpl; [|done].
    apply lookup_delete_eq. }
  assert (∀ k, k ≠ key → m_index (remove s key) !! k = m_index s !! k) as Hkeep.
  { intros k Hk. unfold remove. destruct (m_index s !! key); simpl; [|done].
    by apply lookup_delete_ne. }
  assert (m_filename (remove s key) = m_filename s) as Hname.
  { unfold remove. by destruct (m_index s !! key). }
  repeat split.
  - unfold operator_subscript. by rewrite Hgone.
  - unfold getOffset. by rewrite Hgone.
  - rewrite !operator_subscript_eq, Hname, Hkeep; done.
  - unfold getOffset. by rewrite Hkeep.
  - unfold remove at 1. by rewrite Hgone.
  - done.
Qed.

(** [clear_index] forgets every key: afterwards every lookup is empty and
    every [getOffset] is -1, while the map, the paths and the files are
    untouched; a following [remove] or [clear_index] changes nothing. *)
Theorem clear_index_forgets_every_key s fs key :
  operator_subscript (clear_index s) fs key = []
  ∧ getOffset (clear_index s) key = Some (-1)%Z
  ∧ remove (clear_index s) key = clear_index s
  ∧ clear_index (clear_index s) = clear_index s
  ∧ map (clear_index s) = map s
  ∧ m_filename (clear_index s) = m_filename s.
Proof.
  unfold operator_subscript, getOffset, remove, clear_index. simpl.
  by rewrite lookup_empty.
Qed.

(** No vector of the index is ever empty: this holds after the constructor
    and is kept by [insert], [remove], [clear_index] and [index_directory],
    so the [back()] of [getOffset] is always taken on a vector that has a
    last element. *)
Theorem index_vectors_stay_nonempty s fs :
  index_nonempty (m_index s) →
  (∀ key value, index_nonempty (m_index (insert s fs key value).1))
  ∧ (∀ key, index_nonempty (m_index (remove s key)))
  ∧ index_nonempty (m_index (clear_index s))
  ∧ (∀ fuel d s', index_directory fuel fs d s = Done s' →
       index_nonempty (m_index s'))
  ∧ (∀ key, is_Some (getOffset s key))
  ∧ (∀ fuel p s0, DataLake_new fuel fs p = Some s0 →
       index_nonempty (m_index s0)).
Proof.
  intros Hidx. repeat split.
  - intros key value. unfold insert.
    destruct (open_append fs (m_filename s)); simpl; [|done].
    by apply record_nonempty.
  - intros key k offsets. unfold remove.
    destruct (m_index s !! key); simpl; [|apply Hidx].
    destruct (decide (k = key)) as [->|Hk].
    + by rewrite lookup_delete_eq.
    + rewrite lookup_delete_ne by done. apply Hidx.
  - intros k offsets. simpl. by rewrite lookup_empty.
  - intros fuel d s'. rewrite index_directory_eq.
    destruct (fs_dir fs !! d) as [entries|]; [|done].
    destruct (dir_pairs fuel fs entries) as [ps|]; [|done].
    intros [= <-]. simpl. by apply record_all_nonempty.
  - intros key. unfold getOffset.
    destruct (m_index s !! key) as [offsets|] eqn:E; [|by eexists].
    specialize (Hidx key offsets E).
    destruct offsets as [|o offsets _] using rev_ind; [done|].
    rewrite last_snoc. by eexists.
  - intros fuel p s0 (_ & Hempty & _)%DataLake_new_fields k offsets.
    by rewrite Hempty, lookup_empty.
Qed.

(** [index_directory] looks at regular files only: on a listing from which
    the other entries (directories and the like) have been taken out, with
    the same files, it returns the same result. *)
Theorem index_directory_skips_other_entries fuel fs fs' d entries s :
  fs_dir fs !! d = Some entries →
  fs_dir fs' !! d = Some (filter (λ entry, ent_regular entry = true) entries) →
  fs_file fs' = fs_file fs →
  index_directory fuel fs' d s = index_directory fuel fs d s.
Proof.
  intros Hd Hd' Hfiles. rewrite !index_directory_eq, Hd, Hd'.
  by rewrite (dir_pairs_filter fuel fs fs' entries Hfiles), last_regular_filter_eq.
Qed.

(** What the lookups return after a scan, in general: for a directory whose
    one file holds the records of [vs] as the codec writes them, after
    [clear_index] and [index_directory] the lookup of a key returns, for
    each record of that key, the record that follows it in the file (and for
    the last record of the file what an exhausted stream leaves), not the
    record itself. *)
Theorem lookup_after_scan_returns_followers fuel fs d f vs s :
  codec_roundtrip → extract_progress →
  fs_dir fs !! d = Some [mkDirent f true] →
  fs_file fs !! f = Some (encode_all vs) →
  length vs < fuel →
  ∃ s', index_directory fuel fs d (clear_index s) = Done s'
    ∧ ∀ key, operator_subscript s' fs key = followers key vs.
Proof.
  intros Hrt Hprog Hd Hf Hlen.
  rewrite index_directory_eq, Hd. simpl. rewrite Hf.
  pose proof (file_pairs_encoded [] Hrt
                (λ value, extract_nil_fails value Hprog)
                vs [] Value_default fuel Hlen) as Hpairs.
  simpl in Hpairs. rewrite app_nil_r in Hpairs. rewrite Hpairs. simpl.
  eexists. split; [done|]. intros key.
  rewrite operator_subscript_eq. simpl. rewrite Hf.
  rewrite record_all_offsets, lookup_empty, app_nil_r. simpl.
  by rewrite <- (followers_offsets [] Value_default vs key Hrt).
Qed.

(** A record appended by [insert] is found by the next scan, under the key
    that the value itself reports, whatever key was passed to [insert]: after
    [insert], [clear_index] and [index_directory] over the directory of the
    current file, the last entry of [getKey value] is what [tellg] returned
    after that record, the last of the file: the size of the file, or -1
    when its extraction ran into the end of the file and left [eofbit]
    set. *)
Theorem inserted_record_is_found_by_scan fuel fs d vs s key value :
  codec_roundtrip → extract_progress →
  m_filename s ≠ EmptyString →
  fs_dir fs !! d = Some [mkDirent (m_filename s) true] →
  fs_file fs !! m_filename s = Some (encode_all vs) →
  S (length vs) < fuel →
  let s1 := (insert s fs key value).1 in
  let fs1 := (insert s fs key value).2 in
  ∃ s2, index_directory fuel fs1 d (clear_index s1) = Done s2
    ∧ m_index s2
        = record_all ∅ (encoded_pairs 0 Value_default (vs ++ [value]) [])
    ∧ getOffset s2 (getKey value)
        = Some (if extract_eofbit (insertPolicy value)
                     (default Value_default (last vs))
                then (-1)%Z
                else get_fsize fs1 (m_filename s)).
Proof.
  intros Hrt Hprog Hname Hd Hf Hlen s1 fs1.
  assert (insert s fs key value
          = (set_m_index (record (m_index s) key (offset_of_value value)) s,
             mkFilesystem
               (<[m_filename s := encode_all (vs ++ [value])]> (fs_file fs))
               (fs_dir fs) (fs_slot fs))) as Hins.
  { unfold insert.
    rewrite (open_append_existing fs (m_filename s) _ Hname Hf).
    by rewrite (write_file_existing fs (m_filename s) _ _ Hf), encode_all_snoc. }
  subst s1 fs1. rewrite Hins. simpl.
  rewrite index_directory_eq. simpl. rewrite Hd. simpl.
  rewrite lookup_insert_eq.
  pose proof (file_pairs_encoded [] Hrt
                (λ v, extract_nil_fails v Hprog)
                (vs ++ [value]) [] Value_default fuel) as Hpairs.
  simpl in Hpairs. rewrite app_nil_r in Hpairs.
  rewrite Hpairs by (rewrite length_app; simpl; lia). simpl.
  eexists. split; [done|]. rewrite app_nil_r. split; [done|].
  unfold getOffset, get_fsize. simpl. rewrite lookup_insert_eq.
  rewrite record_all_lookup, lookup_empty, encoded_pairs_app, offsets_of_app.
  cbn [encoded_pairs]. rewrite offsets_of_cons, decide_True by done.
  change (offsets_of (getKey value) []) with (@nil Z).
  change (encode_all []) with (@nil Byte.byte).
  rewrite tellg_at_end by (rewrite !length_app; simpl; lia).
  rewrite !app_nil_r, encode_all_snoc, length_app, Nat.add_0_l.
  match goal with
  | |- context [?l ++ [?x]] => destruct (l ++ [x]) as [|o os] eqn:E
  end.
  - by apply app_eq_nil in E as [_ ?].
  - simpl. rewrite <- E, last_snoc. done.
Qed.

(** On a directory that lists no regular file, [index_directory] only notes
    the directory: the index, the current file and the map are as before. *)
Theorem index_directory_without_files fuel fs d entries s :
  fs_dir fs !! d = Some entries →
  filter (λ entry, ent_regular entry = true) entries = [] →
  index_directory fuel fs d s = Done (set_m_directory d s).
Proof.
  intros Hd Hnone. rewrite index_directory_eq, Hd.
  rewrite <- (dir_pairs_filter fuel fs fs entries eq_refl).
  rewrite <- (last_regular_filter_eq entries), Hnone. simpl.
  by destruct s.
Qed.

End DataLake.

(** ** The lake of [ByteCodec] *)

Import ByteCodec.

Local Abbreviation byte_new := (DataLake_new (Key := nat) getKey Value_default extractPolicy).
Local Abbreviation byte_insert := (insert (Key := nat) insertPolicy).
Local Abbreviation byte_lookup := (operator_subscript (Key := nat) Value_default extractPolicy).
Local Abbreviation byte_index_directory :=
  (index_directory (Key := nat) getKey Value_default extractPolicy
     extract_eofbit).
Local Abbreviation byte_read_at := (read_at Value_default extractPolicy).
Local Abbreviation byte_lake := (DataLake (Key := nat) (Value := Value)).

Lemma byte_extract_progress : extract_progress extractPolicy.
Proof.
  intros unread value value' n. unfold extractPolicy.
  destruct unread as [|m [|k [|d rest]]]; try done; destruct m; try done.
  intros Heq. injection Heq as _ <-. simpl. lia.
Qed.

Lemma byte_codec_roundtrip : codec_roundtrip insertPolicy extractPolicy.
Proof. intros [k d] rest value. simpl. split; [done|lia]. Qed.

(** In the file that holds the records of [a1] and [a3], only offset 0
    decodes to [a1]. *)
Lemma byte_read_a1 (z : Z) :
  byte_read_at (insertPolicy a1 ++ insertPolicy a3) z = a1 → z = 0%Z.
Proof.
  unfold read_at, seekg. destruct (z <? 0)%Z eqn:Hneg; [done|].
  apply Z.ltb_ge in Hneg.
  destruct (Z.to_nat z) as [|[|[|[|[|[|[|n]]]]]]] eqn:Hz; try done.
  intros _. lia.
Qed.

(** C2, as the code has it.  Whatever conversion turns the value that
    [insert] hands to the index into an offset, there are two values with one
    key whose successive insertion into a lake with an empty active file is
    not read back: both records are appended, the index holds the two
    converted values in insertion order, [getOffset] returns the second of
    them, and [operator[]] does not return the two values. *)
Theorem insert_twice_misreads (conv : Value → Z) :
  ∃ (v1 v2 : Value) (s0 s1 s3 : byte_lake) (fs3 : filesystem),
    getKey v1 = getKey v2
    ∧ byte_new 1 fs_fresh "lake/0.log" = Some s0
    ∧ byte_index_directory 1 fs_fresh "lake" s0 = Done s1
    ∧ byte_insert conv (byte_insert conv s1 fs_fresh (getKey v1) v1).1
        (byte_insert conv s1 fs_fresh (getKey v1) v1).2 (getKey v2) v2
        = (s3, fs3)
    ∧ fs_file fs3 !! "lake/0.log" = Some (insertPolicy v1 ++ insertPolicy v2)
    ∧ m_index s3 = {[ getKey v1 := [conv v1; conv v2] ]}
    ∧ getOffset s3 (getKey v1) = Some (conv v2)
    ∧ byte_lookup s3 fs3 (getKey v1) ≠ [v1; v2].
Proof.
  destruct (decide (conv a1 = 0%Z)) as [Hzero|Hnonzero].
  - exists a3, a1. do 4 eexists.
    repeat split; try reflexivity.
    rewrite operator_subscript_eq.
    change (byte_read_at (insertPolicy a3 ++ insertPolicy a1)
              <$> [conv a3; conv a1] ≠ [a3; a1]).
    rewrite Hzero. by intros [= _ Ha1].
  - exists a1, a3. do 4 eexists.
    repeat split; try reflexivity.
    rewrite operator_subscript_eq.
    change (byte_read_at (insertPolicy a1 ++ insertPolicy a3)
              <$> [conv a1; conv a3] ≠ [a1; a3]).
    intros [= Ha1 _]. by apply Hnonzero, byte_read_a1.
Qed.

(** C3, as the code has it.  After [index_directory] over a file holding the
    records of [a1], [b2], [a3] (keys 1, 2, 1; records beginning at offsets
    0, 3 and 6), the index holds for each record the offset that follows it:
    3 and 9 for key 1, 6 for key 2.  Decoding at 3, an offset stored under
    key 1, yields [b2], whose key is 2; at 9 nothing can be decoded. *)
Theorem index_directory_records_end_offsets :
  ∃ (s0 s1 : byte_lake) (content : list Byte.byte),
    byte_new 10 fs_one "lake/0.log" = Some s0
    ∧ byte_index_directory 10 fs_one "lake" s0 = Done s1
    ∧ fs_file fs_one !! m_filename s1 = Some content
    ∧ content = insertPolicy a1 ++ insertPolicy b2 ++ insertPolicy a3
    ∧ m_index s1 = {[ 1 := [3%Z; 9%Z]; 2 := [6%Z] ]}
    ∧ byte_read_at content 0 = a1
    ∧ byte_read_at content 3 = b2 ∧ getKey b2 ≠ 1
    ∧ (extractPolicy (seekg content 9) Value_default).2 = None.
Proof.
  do 3 eexists. repeat split; try reflexivity. vm_compute. lia.
Qed.

(** C6, as the code has it.  On the same file, [remove] makes the lookup of
    key 1 empty and a further [index_directory] brings its index entry back;
    but the lookup then returns [b2] and a default value, as it did before
    the removal, not the history [a1], [a3] of key 1 in the log. *)
Theorem removed_key_comes_back_misread :
  ∃ (s0 s1 s3 : byte_lake),
    byte_new 10 fs_one "lake/0.log" = Some s0
    ∧ byte_index_directory 10 fs_one "lake" (clear_index s0) = Done s1
    ∧ m_index s1 !! 1 = Some [3%Z; 9%Z]
    ∧ byte_lookup s1 fs_one 1 = [b2; Value_default]
    ∧ byte_lookup (remove s1 1) fs_one 1 = []
    ∧ byte_index_directory 10 fs_one "lake" (remove s1 1) = Done s3
    ∧ m_index s3 !! 1 = Some [3%Z; 9%Z]
    ∧ byte_lookup s3 fs_one 1 = [b2; Value_default]
    ∧ byte_lookup s3 fs_one 1 ≠ [a1; a3].
Proof.
  do 3 eexists. repeat split; try reflexivity. vm_compute. congruence.
Qed.

(** C4 fails as stated: [index_directory] over a directory in which the scan
    finds nothing leaves the entries of an earlier scan in the index. *)
Lemma index_directory_keeps_old_entries :
  ∃ (s0 s1 s2 : byte_lake),
    byte_new 10 fs_one "lake/0.log" = Some s0
    ∧ byte_index_directory 10 fs_one "lake" s0 = Done s1
    ∧ byte_index_directory 10 fs_one "empty" s1 = Done s2
    ∧ dir_pairs (Key := nat) getKey Value_default extractPolicy extract_eofbit
        10 fs_one []
        = Some []
    ∧ fs_dir fs_one !! "empty" = Some []
    ∧ m_index s2 = {[ 1 := [3%Z; 9%Z]; 2 := [6%Z] ]}
    ∧ m_index s2 ≠ record_all ∅ [].
Proof.
  do 3 eexists. repeat split; try reflexivity.
  intros Heq. apply (f_equal (λ idx : gmap nat (list Z), idx !! 2)) in Heq.
  vm_compute in Heq. discriminate.
Qed.

(** C5 fails as stated: after a second [index_directory] with no write in
    between, the lookup of key 2 returns two values where it returned one. *)
Lemma index_directory_twice_doubles :
  ∃ (s0 s1 s2 : byte_lake),
    byte_new 10 fs_one "lake/0.log" = Some s0
    ∧ byte_index_directory 10 fs_one "lake" s0 = Done s1
    ∧ byte_index_directory 10 fs_one "lake" s1 = Done s2
    ∧ byte_lookup s1 fs_one 2 = [a3]
    ∧ byte_lookup s2 fs_one 2 = [a3; a3]
    ∧ byte_lookup s2 fs_one 2 ≠ byte_lookup s1 fs_one 2.
Proof.
  do 3 eexists. repeat split; try reflexivity. vm_compute. congruence.
Qed.

(** C7 fails as stated: in a file whose second record, at offset 3, cannot be
    decoded while a well-formed record follows at offset 6, the damage is in
    the interior; [index_directory] nevertheless returns normally, with the
    first record alone in the index. *)
Lemma interior_damage_is_not_reported :
  ∃ (s0 s1 : byte_lake) (content : list Byte.byte),
    byte_new 10 fs_damaged "lake/none" = Some s0
    ∧ fs_file fs_damaged !! "lake/0.log" = Some content
    ∧ (extractPolicy (seekg content 3) a1).2 = None
    ∧ extractPolicy (seekg content 6) a1 = (a3, Some 3)
    ∧ byte_index_directory 10 fs_damaged "lake" s0 = Done s1
    ∧ m_index s1 = {[ 1 := [3%Z] ]}.
Proof. do 3 eexists. repeat split; reflexivity. Qed.

(** ** The general statements at concrete lakes *)

Local Ltac fuel_covers_by_length :=
  repeat (constructor;
          [ let Hc := fresh in
            intros ? Hc; vm_compute in Hc; injection Hc as <-; simpl; lia | ]);
  constructor.

(** A newly constructed lake, and the same lake once [index_directory] has
    made the empty file "lake/0.log" its current file. *)
Lemma insert_then_lookup_on_empty_lake_witness :
  let s : byte_lake := mkDataLake "lake/0.log" ∅ ∅ "" "" in
  let s' : byte_lake := mkDataLake "lake/0.log" ∅ ∅ "lake/0.log" "lake" in
  byte_new 1 fs_fresh "lake/0.log" = Some s
  ∧ byte_index_directory 1 fs_fresh "lake" s = Done s'
  ∧ (byte_insert offset_of_value s fs_fresh 1 a1 = (s, fs_fresh)
     ∧ byte_lookup s fs_fresh 1 = [])
  ∧ byte_insert offset_of_value s' fs_fresh 1 a1
      = (set_m_index {[ 1 := [1%Z] ]} s',
         write_file fs_fresh "lake/0.log" (insertPolicy a1))
  ∧ byte_lookup (byte_insert offset_of_value s' fs_fresh 1 a1).1
      (byte_insert offset_of_value s' fs_fresh 1 a1).2 1
      = [byte_read_at (insertPolicy a1) 1].
Proof.
  intros s s'. split; [reflexivity|]. split; [reflexivity|].
  apply (insert_then_lookup_on_empty_lake getKey Value_default insertPolicy
           extractPolicy offset_of_value 1 fs_fresh "lake/0.log" s s' 1 a1);
    [reflexivity | reflexivity | discriminate | reflexivity].
Defined.

Lemma index_directory_appends_to_index_witness :
  let s : byte_lake := mkDataLake "lake/0.log" ∅ {[ 2 := [0%Z] ]} "" "" in
  extract_progress extractPolicy
  ∧ fs_dir fs_one !! "lake" = Some [file "lake/0.log"]
  ∧ fuel_covers 10 fs_one [file "lake/0.log"]
  ∧ ∃ pairs s1 s2,
      dir_pairs getKey Value_default extractPolicy extract_eofbit 10 fs_one
        [file "lake/0.log"]
        = Some pairs
      ∧ byte_index_directory 10 fs_one "lake" s = Done s1
      ∧ m_index s1 = record_all (m_index s) pairs
      ∧ (∀ key, default [] (m_index s1 !! key)
                  = default [] (m_index s !! key) ++ offsets_of key pairs)
      ∧ byte_index_directory 10 fs_one "lake" (clear_index s) = Done s2
      ∧ m_index s2 = record_all ∅ pairs
      ∧ (∀ key, default [] (m_index s2 !! key) = offsets_of key pairs).
Proof.
  intros s.
  assert (fuel_covers 10 fs_one [file "lake/0.log"]) as Hcov
    by fuel_covers_by_length.
  split; [exact byte_extract_progress|]. split; [reflexivity|].
  split; [exact Hcov|].
  exact (index_directory_appends_to_index getKey Value_default extractPolicy
           extract_eofbit
           10 fs_one "lake" [file "lake/0.log"] s
           byte_extract_progress eq_refl Hcov).
Defined.

Lemma clear_then_index_directory_idempotent_witness :
  let s : byte_lake := mkDataLake "lake/0.log" ∅ {[ 2 := [0%Z] ]} "" "" in
  let s1 : byte_lake :=
    mkDataLake "lake/0.log" ∅ {[ 1 := [3%Z; 9%Z]; 2 := [6%Z] ]}
      "lake/0.log" "lake" in
  byte_index_directory 10 fs_one "lake" (clear_index s) = Done s1
  ∧ byte_index_directory 10 fs_one "lake" (clear_index s1) = Done s1
  ∧ ∃ s2, byte_index_directory 10 fs_one "lake" s1 = Done s2
      ∧ ∀ key, default [] (m_index s2 !! key)
                 = default [] (m_index s1 !! key) ++ default [] (m_index s1 !! key).
Proof.
  intros s s1. split; [reflexivity|].
  exact (clear_then_index_directory_idempotent getKey Value_default
           extractPolicy extract_eofbit 10 fs_one "lake" s s1 eq_refl).
Defined.

Lemma scan_ends_silently_at_first_failure_witness :
  let s : byte_lake := mkDataLake "lake/0.log" ∅ ∅ "" "" in
  let entries :=
    [file "lake/0.log"; mkDirent "lake/sub" false; file "lake/1.log"] in
  let files :=
    [mkLogFile "lake/0.log" [a1]
       ([Byte.x00; Byte.x02; Byte.x02] ++ insertPolicy a3);
     mkLogFile "lake/1.log" [b2] []] in
  codec_roundtrip insertPolicy extractPolicy
  ∧ fs_dir fs_damaged_two !! "lake" = Some entries
  ∧ Forall (log_ends_unreadable insertPolicy extractPolicy 2 fs_damaged_two)
      files
  ∧ record_all (m_index s)
      (logged_pairs getKey Value_default insertPolicy extract_eofbit files)
    = {[ 1 := [3%Z]; 2 := [3%Z] ]}
  ∧ byte_index_directory 2 fs_damaged_two "lake" s
      = Done (mkDataLake (path s) (map s)
                (record_all (m_index s)
                   (logged_pairs getKey Value_default insertPolicy
                      extract_eofbit files))
                (last_regular entries (m_filename s)) "lake")
  ∧ (extract_progress extractPolicy →
     ∀ fs' d' entries', fs_dir fs' !! d' = Some entries' →
       ∃ fuel' s', byte_index_directory fuel' fs' d' s = Done s').
Proof.
  intros s entries files.
  assert (Forall (log_ends_unreadable insertPolicy extractPolicy 2
                    fs_damaged_two) files) as Hlogs.
  { repeat constructor; simpl; lia. }
  split; [exact byte_codec_roundtrip|].
  split; [reflexivity|].
  split; [exact Hlogs|].
  split; [reflexivity|].
  exact (scan_ends_silently_at_first_failure getKey Value_default insertPolicy
           extractPolicy extract_eofbit 2 fs_damaged_two "lake" entries files s
           byte_codec_roundtrip eq_refl eq_refl Hlogs).
Defined.

Lemma missing_key_is_not_an_error_witness :
  let s : byte_lake :=
    mkDataLake "lake/0.log" ∅ {[ 1 := [3%Z; 9%Z]; 2 := [6%Z] ]}
      "lake/0.log" "lake" in
  m_index s !! 5 = None
  ∧ byte_lookup s fs_one 5 = [] ∧ getOffset s 5 = Some (-1)%Z.
Proof.
  intros s. split; [reflexivity|].
  apply (missing_key_is_not_an_error Value_default extractPolicy s fs_one 5).
  reflexivity.
Defined.

(** With two log files, the offsets 3 (recorded from the first file) and 3, 6
    (recorded from the second) are all read in the second file. *)
Lemma lookup_reads_last_enumerated_file_witness :
  let s : byte_lake := mkDataLake "lake/0.log" ∅ ∅ "" "" in
  let s' : byte_lake :=
    mkDataLake "lake/0.log" ∅ {[ 1 := [3%Z; 6%Z]; 2 := [3%Z] ]}
      "lake/1.log" "lake" in
  let f := file "lake/1.log" in
  byte_index_directory 7 fs_two "lake" s = Done s'
  ∧ m_filename s' = ent_path f
  ∧ (∀ fs' key,
       byte_lookup s' fs' key
         = match fs_file fs' !! ent_path f with
           | Some content => byte_read_at content <$> default [] (m_index s' !! key)
           | None => []
           end)
  ∧ (∀ fs' key value,
       m_filename (byte_insert offset_of_value s' fs' key value).1 = ent_path f
       ∧ ∀ g, g ≠ ent_path f →
           fs_file (byte_insert offset_of_value s' fs' key value).2 !! g
             = fs_file fs' !! g).
Proof.
  intros s s' f. split; [reflexivity|].
  apply (lookup_reads_last_enumerated_file getKey Value_default insertPolicy
           extractPolicy extract_eofbit offset_of_value 7 fs_two "lake"
           [file "lake/0.log"; file "lake/1.log"] [file "lake/0.log"] f s s');
    reflexivity.
Defined.

Lemma constructor_fills_map_not_index_witness :
  extract_progress extractPolicy
  ∧ ∃ (s : byte_lake) values,
      byte_new 10 fs_one "lake/0.log" = Some s
      ∧ match fs_file fs_one !! "lake/0.log" with
        | Some content =>
            file_values extractPolicy 10 content 0 Value_default = Some values
        | None => values = []
        end
      ∧ (∀ vs, codec_roundtrip insertPolicy extractPolicy →
               fs_file fs_one !! "lake/0.log" = Some (encode_all insertPolicy vs) →
               values = vs)
      ∧ (∀ key, map s !! key = head (filter (λ v, getKey v = key) values))
      ∧ m_index s = ∅
      ∧ (∀ fs' key, byte_lookup s fs' key = []
                    ∧ getOffset s key = Some (-1)%Z)
      ∧ (∀ m fs' key,
           let s' := mkDataLake (path s) m (m_index s) (m_filename s)
                       (m_directory s) in
           byte_lookup s' fs' key = byte_lookup s fs' key
           ∧ getOffset s' key = getOffset s key).
Proof.
  split; [exact byte_extract_progress|].
  apply (constructor_fills_map_not_index getKey Value_default insertPolicy
           extractPolicy 10 fs_one "lake/0.log" byte_extract_progress).
  intros content Hc. vm_compute in Hc. injection Hc as <-. simpl. lia.
Defined.

(** ** Properties of KripkeFrame *)

Lemma run_calls_keeps_empty {State Label : Type}
    (calls : list (frame_call State Label)) frame frame' :
  m_labels frame = [] → m_transitions frame = [] →
  run_calls calls frame = Some frame' →
  m_states frame' = m_states frame ++ added_states calls
  ∧ m_labels frame' = [] ∧ m_transitions frame' = []
  ∧ Forall (λ call, ∃ state label, call = Call_add_state state label) calls.
Proof.
  revert frame. induction calls as [|call calls IH]; intros frame Hl Ht; simpl.
  { intros [= <-]. by rewrite app_nil_r. }
  destruct call as [state label|from to]; simpl.
  - intros Hrun.
    destruct (IH (add_state state label frame) Hl Ht Hrun)
      as (Hs & Hl' & Ht' & Hall).
    simpl in Hs. rewrite <- app_assoc in Hs. repeat split; try done.
    constructor; [by eauto|done].
  - unfold add_transition. by rewrite Ht.
Qed.

(** Starting from a default-constructed frame, the states passed to
    [add_state] are kept in call order: [num_states] is their number and
    [get_state] returns the state of the call with that index, and is out
    of range from [num_states] on. *)
Theorem added_states_are_kept_in_order {State Label : Type}
    (calls : list (frame_call State Label)) frame :
  run_calls calls KripkeFrame_new = Some frame →
  num_states frame = length (added_states calls)
  ∧ (∀ idx, get_state frame idx = added_states calls !! idx)
  ∧ (∀ idx, num_states frame ≤ idx → get_state frame idx = None).
Proof.
  intros Hrun.
  destruct (run_calls_keeps_empty calls KripkeFrame_new frame eq_refl eq_refl Hrun)
    as (Hs & _). simpl in Hs.
  unfold num_states, get_state. rewrite Hs. repeat split.
  intros idx Hidx. by apply lookup_ge_None.
Qed.

(** Starting from a default-constructed frame, no label is ever stored and
    no transition can be added: [add_state] drops its label and nothing
    resizes [m_transitions], so after any sequence of calls that stays
    within the vectors [get_label] is out of range for every index,
    [add_transition] is out of range for every source state, and the
    sequence held no [add_transition] call. *)
Theorem labels_and_transitions_stay_empty {State Label : Type}
    (calls : list (frame_call State Label)) frame :
  run_calls calls KripkeFrame_new = Some frame →
  (∀ idx, get_label frame idx = None)
  ∧ (∀ from to, add_transition from to frame = None)
  ∧ Forall (λ call, ∃ state label, call = Call_add_state state label) calls.
Proof.
  intros Hrun.
  destruct (run_calls_keeps_empty calls KripkeFrame_new frame eq_refl eq_refl Hrun)
    as (_ & Hl & Ht & Hall).
  repeat split; [| |done].
  - intros idx. unfold get_label. by rewrite Hl.
  - intros from to. unfold add_transition. by rewrite Ht.
Qed.

(** ** Properties of Expression *)

Lemma total_app zs1 zs2 : total (zs1 ++ zs2) = (total zs1 + total zs2)%Z.
Proof.
  unfold total. induction zs1 as [|z zs1 IH]; simpl; [done|]. rewrite IH. lia.
Qed.

Lemma total_nonneg zs : Forall (λ z, 0 ≤ z)%Z zs → (0 ≤ total zs)%Z.
Proof.
  unfold total. induction 1 as [|z zs Hz _ IH]; simpl; lia.
Qed.

(** An expression made of [Add] nodes over constants that are not negative
    evaluates to the sum of its leaves, however the additions are nested,
    as long as that sum fits in an [int]. *)
Theorem sum_tree_evaluates_to_total int_max e :
  sum_tree e = true →
  Forall (λ z, 0 ≤ z)%Z (leaves e) →
  (total (leaves e) ≤ int_max)%Z →
  evaluate int_max e = Some (total (leaves e)).
Proof.
  induction e as [v|v|Op l IHl r IHr|Op e IH]; simpl; intros Htree Hpos Hfit.
  - unfold total. simpl. f_equal. lia.
  - unfold total. simpl. f_equal. lia.
  - destruct Op; try done.
    apply andb_prop in Htree as [Hl Hr].
    apply Forall_app in Hpos as [Hposl Hposr].
    rewrite total_app in Hfit |- *.
    pose proof (total_nonneg _ Hposl). pose proof (total_nonneg _ Hposr).
    rewrite IHl, IHr by (done || lia). simpl. unfold in_int.
    by rewrite decide_True by lia.
  - done.
Qed.

(** ** The further properties at concrete inputs *)


(** A lake whose current file is the directory "empty", and one whose
    current file lies in a directory that does not exist. *)
Lemma insert_on_unopenable_path_is_dropped_witness :
  let s : byte_lake := mkDataLake "lake/0.log" ∅ ∅ "empty" "lake" in
  let s' : byte_lake := mkDataLake "lake/0.log" ∅ ∅ "gone/0.log" "lake" in
  is_Some (fs_dir fs_one !! "empty")
  ∧ parent_path "gone/0.log" = Some "gone"
  ∧ fs_dir fs_one !! "gone" = None
  ∧ byte_insert offset_of_value s fs_one 1 a1 = (s, fs_one)
  ∧ byte_insert offset_of_value s' fs_one 1 a1 = (s', fs_one).
Proof.
  intros s s'.
  assert (is_Some (fs_dir fs_one !! "empty")) as Hdir by (by eexists).
  split; [exact Hdir|]. split; [reflexivity|]. split; [reflexivity|]. split.
  - apply (insert_on_unopenable_path_is_dropped insertPolicy offset_of_value
             s fs_one 1 a1); [reflexivity|]. left. exact Hdir.
  - apply (insert_on_unopenable_path_is_dropped insertPolicy offset_of_value
             s' fs_one 1 a1); [reflexivity|]. right.
    exists "gone". split; reflexivity.
Defined.

Lemma insert_without_current_file_is_dropped_witness :
  let s : byte_lake := mkDataLake "lake/0.log" ∅ ∅ "" "" in
  m_filename s = EmptyString
  ∧ byte_insert offset_of_value s fs_one 1 a1 = (s, fs_one)
  ∧ ∀ k, byte_lookup (byte_insert offset_of_value s fs_one 1 a1).1
           (byte_insert offset_of_value s fs_one 1 a1).2 k
         = byte_lookup s fs_one k.
Proof.
  intros s. split; [reflexivity|].
  apply (insert_without_current_file_is_dropped Value_default insertPolicy
           extractPolicy offset_of_value s fs_one 1 a1).
  reflexivity.
Defined.

(** Key 1 indexed at 0 and 6, where its two records begin. *)
Lemma lookup_at_record_starts_witness :
  let s : byte_lake :=
    mkDataLake "lake/0.log" ∅ {[ 1 := [0%Z; 6%Z] ]} "lake/0.log" "lake" in
  codec_roundtrip insertPolicy extractPolicy
  ∧ byte_lookup s fs_one 1 = [a1; a3].
Proof.
  intros s. split; [exact byte_codec_roundtrip|].
  apply (lookup_at_record_starts Value_default insertPolicy extractPolicy
           s fs_one 1
           (insertPolicy a1 ++ insertPolicy b2 ++ insertPolicy a3)
           [0%Z; 6%Z] [a1; a3] byte_codec_roundtrip);
    [reflexivity | reflexivity |].
  constructor.
  { exists [], (insertPolicy b2 ++ insertPolicy a3). split; reflexivity. }
  constructor; [|constructor].
  exists (insertPolicy a1 ++ insertPolicy b2), []. split; reflexivity.
Defined.

Lemma read_outside_file_witness :
  ((-1) < 0 ∨ Z.of_nat (length (insertPolicy a1)) ≤ -1)%Z
  ∧ byte_read_at (insertPolicy a1) (-1) = (extractPolicy [] Value_default).1.
Proof.
  split; [left; lia|].
  apply (read_outside_file Value_default extractPolicy (insertPolicy a1) (-1)).
  left. lia.
Defined.

Lemma index_vectors_stay_nonempty_witness :
  let s : byte_lake :=
    mkDataLake "lake/0.log" ∅ {[ 2 := [6%Z] ]} "lake/0.log" "lake" in
  index_nonempty (m_index s)
  ∧ (∀ key value,
       index_nonempty (m_index (byte_insert offset_of_value s fs_one key value).1))
  ∧ (∀ key, index_nonempty (m_index (remove s key)))
  ∧ index_nonempty (m_index (clear_index s))
  ∧ (∀ fuel d s', byte_index_directory fuel fs_one d s = Done s' →
       index_nonempty (m_index s'))
  ∧ (∀ key, is_Some (getOffset s key))
  ∧ (∀ fuel p s0, byte_new fuel fs_one p = Some s0 →
       index_nonempty (m_index s0)).
Proof.
  intros s.
  assert (index_nonempty (m_index s)) as Hs.
  { intros key offsets. simpl. rewrite lookup_singleton.
    destruct (decide (2 = key)); [intros [= <-]; discriminate|discriminate]. }
  split; [exact Hs|].
  exact (index_vectors_stay_nonempty getKey Value_default insertPolicy
           extractPolicy extract_eofbit offset_of_value s fs_one Hs).
Defined.

Lemma index_directory_skips_other_entries_witness :
  let s : byte_lake := mkDataLake "lake/0.log" ∅ ∅ "" "" in
  fs_dir fs_two !! "lake"
    = Some (filter (λ entry, ent_regular entry = true)
              [mkDirent "lake/sub" false; file "lake/0.log"; file "lake/1.log"])
  ∧ byte_index_directory 7 fs_two "lake" s
      = byte_index_directory 7 fs_mixed "lake" s.
Proof.
  intros s. split; [reflexivity|].
  apply (index_directory_skips_other_entries getKey Value_default
           extractPolicy extract_eofbit 7 fs_mixed fs_two "lake"
           [mkDirent "lake/sub" false; file "lake/0.log"; file "lake/1.log"] s);
    reflexivity.
Defined.

Lemma lookup_after_scan_returns_followers_witness :
  let s : byte_lake := mkDataLake "lake/0.log" ∅ {[ 2 := [0%Z] ]} "" "" in
  fs_file fs_one !! "lake/0.log" = Some (encode_all insertPolicy [a1; b2; a3])
  ∧ ∃ s', byte_index_directory 4 fs_one "lake" (clear_index s) = Done s'
      ∧ ∀ key, byte_lookup s' fs_one key
               = followers getKey Value_default extractPolicy key [a1; b2; a3].
Proof.
  intros s. split; [reflexivity|].
  apply (lookup_after_scan_returns_followers getKey Value_default insertPolicy
           extractPolicy extract_eofbit 4 fs_one "lake" "lake/0.log" [a1; b2; a3] s
           byte_codec_roundtrip byte_extract_progress);
    [reflexivity | reflexivity | simpl; lia].
Defined.

(** [b2], whose own key is 2, inserted under key 7, with the codec that
    reads just the record and with the one that reads ahead. *)
Lemma inserted_record_is_found_by_scan_witness :
  let s : byte_lake := mkDataLake "lake/0.log" ∅ ∅ "lake/0.log" "lake" in
  let s1 := (byte_insert offset_of_value s fs_one 7 b2).1 in
  let fs1 := (byte_insert offset_of_value s fs_one 7 b2).2 in
  m_filename s ≠ EmptyString
  ∧ (∃ s2, byte_index_directory 5 fs1 "lake" (clear_index s1) = Done s2
       ∧ m_index s2
           = record_all ∅
               (encoded_pairs getKey insertPolicy extract_eofbit 0
                  Value_default ([a1; b2; a3] ++ [b2]) [])
       ∧ getOffset s2 (getKey b2)
           = Some (if extract_eofbit (insertPolicy b2)
                        (default Value_default (last [a1; b2; a3]))
                   then (-1)%Z
                   else get_fsize fs1 (m_filename s)))
  ∧ (∃ s2, index_directory (Key := nat) getKey Value_default extractPolicy
             extract_eofbit_ahead 5 fs1 "lake" (clear_index s1) = Done s2
       ∧ m_index s2
           = record_all ∅
               (encoded_pairs getKey insertPolicy extract_eofbit_ahead 0
                  Value_default ([a1; b2; a3] ++ [b2]) [])
       ∧ getOffset s2 (getKey b2)
           = Some (if extract_eofbit_ahead (insertPolicy b2)
                        (default Value_default (last [a1; b2; a3]))
                   then (-1)%Z
                   else get_fsize fs1 (m_filename s))).
Proof.
  intros s s1 fs1. split; [discriminate|]. split.
  - apply (inserted_record_is_found_by_scan getKey Value_default insertPolicy
             extractPolicy extract_eofbit offset_of_value 5 fs_one "lake"
             [a1; b2; a3] s 7 b2
             byte_codec_roundtrip byte_extract_progress);
      [discriminate | reflexivity | reflexivity | simpl; lia].
  - apply (inserted_record_is_found_by_scan getKey Value_default insertPolicy
             extractPolicy extract_eofbit_ahead offset_of_value 5 fs_one "lake"
             [a1; b2; a3] s 7 b2
             byte_codec_roundtrip byte_extract_progress);
      [discriminate | reflexivity | reflexivity | simpl; lia].
Defined.

Lemma added_states_are_kept_in_order_witness :
  let calls : list (frame_call string nat) :=
    [Call_add_state "p" 1; Call_add_state "q" 2] in
  let frame : KripkeFrame string nat := mkKripkeFrame ["p"; "q"] [] [] in
  run_calls calls KripkeFrame_new = Some frame
  ∧ num_states frame = length (added_states calls)
  ∧ (∀ idx, get_state frame idx = added_states calls !! idx)
  ∧ (∀ idx, num_states frame ≤ idx → get_state frame idx = None).
Proof.
  intros calls frame. split; [reflexivity|].
  apply (added_states_are_kept_in_order calls frame). reflexivity.
Defined.

Lemma labels_and_transitions_stay_empty_witness :
  let calls : list (frame_call string nat) :=
    [Call_add_state "p" 1; Call_add_state "q" 2] in
  let frame : KripkeFrame string nat := mkKripkeFrame ["p"; "q"] [] [] in
  run_calls calls KripkeFrame_new = Some frame
  ∧ (∀ idx, get_label frame idx = None)
  ∧ (∀ from to, add_transition from to frame = None)
  ∧ Forall (λ call, ∃ state label, call = Call_add_state state label) calls.
Proof.
  intros calls frame. split; [reflexivity|].
  apply (labels_and_transitions_stay_empty calls frame). reflexivity.
Defined.

(** The expression of [main], with a 32-bit [int]: 5 + 10 + 15. *)
Lemma sum_tree_evaluates_to_total_witness :
  sum_tree main_expression = true
  ∧ total (leaves main_expression) = 30%Z
  ∧ evaluate 2147483647 main_expression
      = Some (total (leaves main_expression)).
Proof.
  split; [reflexivity|]. split; [reflexivity|].
  apply (sum_tree_evaluates_to_total 2147483647 main_expression);
    [reflexivity | repeat constructor; lia | vm_compute; discriminate].
Defined.

Lemma index_directory_without_files_witness :
  let s : byte_lake :=
    mkDataLake "lake/0.log" ∅ {[ 2 := [6%Z] ]} "lake/0.log" "lake" in
  fs_dir fs_one !! "empty" = Some []
  ∧ byte_index_directory 0 fs_one "empty" s = Done (set_m_directory "empty" s).
Proof.
  intros s. split; [reflexivity|].
  apply (index_directory_without_files getKey Value_default extractPolicy
           extract_eofbit 0 fs_one "empty" [] s); reflexivity.
Defined.
